(** * fix-googlesignin-package: a model of the Package.swift rewriter

    The script [ios/fix-googlesignin-package.py] locates the GoogleSignIn-iOS
    manifest below the caller's Xcode DerivedData directory, applies a fixed
    sequence of textual substitutions to it and writes the result back when
    it differs from what was read.

    The development has three layers:
    - the text primitives the script calls ([re.sub], [str.replace]) over
      strings of Unicode code points;
    - the script's own functions ([find_package_file], [fix_package_swift],
      [main]) over an explicit filesystem and output state;
    - the properties of the substitutions and of the effects. *)

From Stdlib Require Import String Ascii.
From Stdlib Require Import List NArith Arith Lia Bool Permutation.
Import ListNotations.

(* ================================================================= *)
(** ** Text *)

(** A Python [str] is a sequence of code points. *)
Definition char := N.
Definition text := list char.

(** ASCII literals of the source, written as Rocq strings. *)
Definition lit (s : string) : text := map N_of_ascii (list_ascii_of_string s).

(** The double quote, written apart so that no literal needs an escape. *)
Definition dq : char := 34%N.
Definition dot : char := 46%N.

Definition text_eqb (a b : text) : bool :=
  if list_eq_dec N.eq_dec a b then true else false.

(** [strip_prefix p s] is [Some rest] when [s = p ++ rest]. *)
Fixpoint strip_prefix (p s : text) : option text :=
  match p with
  | [] => Some s
  | c :: p' =>
      match s with
      | d :: s' => if N.eqb c d then strip_prefix p' s' else None
      | [] => None
      end
  end.

(** [str.isspace] on one code point, which is what [\s] tests in a [str]
    pattern: the ASCII table entries 9-13, 28-32 and the Unicode white
    space above 127. *)
Definition is_space (c : char) : bool :=
  ((9 <=? c) && (c <=? 13) || (28 <=? c) && (c <=? 32)
   || (c =? 133) || (c =? 160) || (c =? 5760)
   || (8192 <=? c) && (c <=? 8202)
   || (c =? 8232) || (c =? 8233) || (c =? 8239) || (c =? 8287)
   || (c =? 12288))%N.

(** The negated class of the revision pattern: any character but the
    double quote. *)
Definition not_dq (c : char) : bool := negb (N.eqb c dq).

(* ================================================================= *)
(** ** Regular expressions: the fragment of [re] the script uses *)

(** Literal runs, a greedy repeat of a one-character class with a minimum
    count ([\s*] is [Rep 0 is_space], one or more non-quote characters is
    [Rep 1 not_dq]),
    concatenation and numbered capturing groups. *)
Inductive regex : Type :=
| Str (l : text)
| Rep (min : nat) (p : char -> bool)
| Seq (r1 r2 : regex)
| Grp (i : nat) (r : regex).

(** Captured groups, most recent first. *)
Definition captures := list (nat * text).

Fixpoint group (i : nat) (caps : captures) : option text :=
  match caps with
  | [] => None
  | (j, t) :: caps' => if Nat.eqb i j then Some t else group i caps'
  end.

(** The greedy repeat as the backtracking engine runs it: take as many
    characters of the class as there are, then give them back one at a time
    until the continuation [k] succeeds, never going below [min]. *)
Fixpoint rep {A : Type} (p : char -> bool) (k : text -> option A)
  (min : nat) (s : text) : option A :=
  match s with
  | c :: s' =>
      if p c then
        match rep p k (pred min) s' with
        | Some a => Some a
        | None => match min with O => k s | S _ => None end
        end
      else match min with O => k s | S _ => None end
  | [] => match min with O => k [] | S _ => None end
  end.

(** The matcher in continuation-passing style: [k] receives the groups
    captured so far and the input that is left. *)
Fixpoint m {A : Type} (r : regex) (k : captures -> text -> option A)
  (caps : captures) (s : text) : option A :=
  match r with
  | Str l =>
      match strip_prefix l s with
      | Some rest => k caps rest
      | None => None
      end
  | Rep n p => rep p (k caps) n s
  | Seq r1 r2 => m r1 (fun caps' rest => m r2 k caps' rest) caps s
  | Grp i r1 =>
      m r1 (fun caps' rest =>
              k ((i, firstn (length s - length rest) s) :: caps') rest)
        caps s
  end.

(** A match anchored at the head of [s].  With [must_advance] an empty
    match is refused and the engine backtracks, as after an empty match at
    the same position. *)
Definition match_at (r : regex) (must_advance : bool) (s : text)
  : option (captures * text) :=
  m r (fun caps rest =>
         if must_advance && (length rest =? length s) then None
         else Some (caps, rest))
    [] s.

(** A parsed replacement template: literal text and group references. *)
Inductive tpl_item : Type :=
| TLit (l : text)
| TGrp (i : nat).

Definition expand_item (caps : captures) (it : tpl_item) : text :=
  match it with
  | TLit l => l
  | TGrp i => match group i caps with Some t => t | None => [] end
  end.

Definition expand (tpl : list tpl_item) (caps : captures) : text :=
  flat_map (expand_item caps) tpl.

(** The substitution loop of [re.sub]: the leftmost match from the current
    position is replaced and the scan resumes after it; a position without
    a match copies one character. *)
Fixpoint sub_loop (r : regex) (tpl : list tpl_item) (fuel : nat)
  (must_advance : bool) (s : text) : text :=
  match fuel with
  | O => s
  | S fuel' =>
      match match_at r must_advance s with
      | Some (caps, rest) =>
          expand tpl caps
            ++ sub_loop r tpl fuel' (length rest =? length s) rest
      | None =>
          match s with
          | [] => []
          | c :: s' => c :: sub_loop r tpl fuel' false s'
          end
      end
  end.

Definition re_sub (r : regex) (tpl : list tpl_item) (s : text) : text :=
  sub_loop r tpl (2 * length s + 2) false s.

(* ================================================================= *)
(** ** Scanning with a matcher, and [str.replace] *)

(** A matcher looks at the head of the input and answers with the text to
    emit and the input left after the match. *)
Definition matcher := text -> option (text * text).

Fixpoint scan (T : matcher) (fuel : nat) (s : text) : text :=
  match fuel with
  | O => s
  | S fuel' =>
      match T s with
      | Some (out, rest) => out ++ scan T fuel' rest
      | None =>
          match s with
          | [] => []
          | c :: s' => c :: scan T fuel' s'
          end
      end
  end.

Definition literal (old new : text) : matcher :=
  fun s => match strip_prefix old s with
           | Some rest => Some (new, rest)
           | None => None
           end.

(** [s.replace(old, new)]: every non-overlapping occurrence from the left.
    An empty [old] inserts [new] before each character and at the end. *)
Definition str_replace (old new s : text) : text :=
  match old with
  | [] => new ++ flat_map (fun c => c :: new) s
  | _ :: _ => scan (literal old new) (length s) s
  end.

(* ================================================================= *)
(** ** The substitutions of [fix_package_swift] *)

(** The declaration pattern of the source for one dependency name:
    [.package(], white space, the name argument with its quoted value and
    comma, white space, [url:]. *)
Definition decl_pattern (name : string) : regex :=
  Seq (Str (lit ".package("))
   (Seq (Rep 0 is_space)
    (Seq (Str (lit "name: " ++ dq :: lit name ++ dq :: lit ","))
     (Seq (Rep 0 is_space)
          (Str (lit "url:"))))).

Definition decl_repl : list tpl_item := [TLit (lit ".package(url:")].

(** The pin pattern, [.revision(] with a quoted non-empty value captured
    as group 1, and its replacement template. *)
Definition revision_pattern : regex :=
  Seq (Str (lit ".revision(" ++ [dq]))
   (Seq (Grp 1 (Rep 1 not_dq))
        (Str (dq :: lit ")"))).

Definition revision_repl : list tpl_item :=
  [TLit (lit "revision: " ++ [dq]); TGrp 1; TLit [dq]].

(** A target reference: [package: ] followed by the quoted value. *)
Definition ref (value : string) : text :=
  lit "package: " ++ dq :: lit value ++ [dq].

Definition simplify_declarations (content : text) : text :=
  let content := re_sub (decl_pattern "AppAuth") decl_repl content in
  let content := re_sub (decl_pattern "AppCheck") decl_repl content in
  let content := re_sub (decl_pattern "GTMAppAuth") decl_repl content in
  let content := re_sub (decl_pattern "GTMSessionFetcher") decl_repl content in
  let content := re_sub (decl_pattern "GoogleUtilities") decl_repl content in
  let content := re_sub (decl_pattern "OCMock") decl_repl content in
  content.

Definition normalize_revision (content : text) : text :=
  re_sub revision_pattern revision_repl content.

Definition rename_references (content : text) : text :=
  let content := str_replace (ref "AppAuth") (ref "appauth-ios") content in
  let content := str_replace (ref "AppCheck") (ref "app-check") content in
  let content := str_replace (ref "GTMAppAuth") (ref "gtmappauth") content in
  let content :=
    str_replace (ref "GTMSessionFetcher") (ref "gtm-session-fetcher") content in
  let content :=
    str_replace (ref "GoogleUtilities") (ref "googleutilities") content in
  content.

(** The whole text transform, in the order of the source. *)
Definition rewrite (content : text) : text :=
  rename_references (normalize_revision (simplify_declarations content)).

(* ================================================================= *)
(** ** The filesystem, the environment and the standard output *)

Definition path := text.

(** A regular file: its content as a text-mode read returns it, and its
    permission bits. *)
Record file : Type := { f_content : text; f_mode : N }.

(** Modifications of the filesystem, journalled in the order they happen. *)
Inductive event : Type :=
| EvChmod (p : path) (mode : N)
| EvWrite (p : path) (content : text).

Record world : Type := {
  w_home : list text;                     (* components of [Path.home()] *)
  w_umask : N;
  w_files : path -> option file;
  w_exists : path -> bool;                (* [os.stat] succeeds *)
  w_lexists : path -> bool;               (* [os.lstat] succeeds *)
  w_scandir : path -> list (text * bool); (* entries, with [is_dir()] *)
  w_journal : list event;                 (* oldest first *)
  w_stdout : list text                    (* lines printed, oldest first *)
}.

Inductive exn : Type :=
| FileNotFoundError (p : path).

Inductive outcome (A : Type) : Type :=
| Returned (a : A) (w : world)
| Raised (e : exn) (w : world).

Arguments Returned {A} a w.
Arguments Raised {A} e w.

(** Computations that read and change the world and may raise. *)
Definition io (A : Type) : Type := world -> outcome A.

Definition ret {A : Type} (a : A) : io A := fun w => Returned a w.

Definition bind {A B : Type} (c : io A) (f : A -> io B) : io B :=
  fun w => match c w with
           | Returned a w' => f a w'
           | Raised e w' => Raised e w'
           end.

Declare Scope io_scope.
Delimit Scope io_scope with io.
Notation "x <- c ;; k" := (bind c (fun x => k))
  (at level 61, c at next level, right associativity) : io_scope.
Notation "c ;; k" := (bind c (fun _ => k))
  (at level 61, right associativity) : io_scope.

Definition query {A : Type} (f : world -> A) : io A :=
  fun w => Returned (f w) w.

Definition set_file (p : path) (f : file) (files : path -> option file)
  : path -> option file :=
  fun q => if text_eqb q p then Some f else files q.

Definition with_file (p : path) (f : file) (e : event) (w : world) : world :=
  {| w_home := w_home w;
     w_umask := w_umask w;
     w_files := set_file p f (w_files w);
     w_exists := w_exists w;
     w_lexists := w_lexists w;
     w_scandir := w_scandir w;
     w_journal := w_journal w ++ [e];
     w_stdout := w_stdout w |}.

(** [open(p, 'r', encoding='utf-8')] and [f.read()]. *)
Definition read_text (p : path) : io text :=
  fun w => match w_files w p with
           | Some f => Returned (f_content f) w
           | None => Raised (FileNotFoundError p) w
           end.

(** [os.chmod(p, mode)]. *)
Definition chmod (p : path) (mode : N) : io unit :=
  fun w => match w_files w p with
           | Some f =>
               Returned tt
                 (with_file p {| f_content := f_content f; f_mode := mode |}
                    (EvChmod p mode) w)
           | None => Raised (FileNotFoundError p) w
           end.

(** [open(p, 'w', encoding='utf-8')] and [f.write(content)]: the file is
    truncated and rewritten; its permission bits stay.  A missing file is
    created with the bits the umask leaves of 0o666. *)
Definition write_text (p : path) (content : text) : io unit :=
  fun w =>
    let mode := match w_files w p with
                | Some f => f_mode f
                | None => N.land 438 (N.lxor 511 (N.land 511 (w_umask w)))
                end in
    Returned tt
      (with_file p {| f_content := content; f_mode := mode |}
         (EvWrite p content) w).

(** [print(line)]. *)
Definition print (line : text) : io unit :=
  fun w => Returned tt
    {| w_home := w_home w;
       w_umask := w_umask w;
       w_files := w_files w;
       w_exists := w_exists w;
       w_lexists := w_lexists w;
       w_scandir := w_scandir w;
       w_journal := w_journal w;
       w_stdout := w_stdout w ++ [line] |}.

(** The exit status of the interpreter: 0 when the script returns, 1 when
    an exception reaches the top level. *)
Definition exit_status {A : Type} (o : outcome A) : N :=
  match o with
  | Returned _ _ => 0%N
  | Raised _ _ => 1%N
  end.


(* ================================================================= *)
(** ** Paths and [glob.glob] *)

Definition sep : char := 47%N.

(** [str] of an absolute [Path] with the given components. *)
Definition str_path (comps : list text) : path :=
  match comps with
  | [] => [sep]
  | _ :: _ => flat_map (fun c => sep :: c) comps
  end.

(** [os.path.join] of a directory and one name. *)
Definition join (dirname name : text) : path :=
  match name with
  | c :: _ =>
      if N.eqb c sep then name
      else match rev dirname with
           | [] => name
           | d :: _ => if N.eqb d sep then dirname ++ name
                       else dirname ++ sep :: name
           end
  | [] =>
      match rev dirname with
      | [] => name
      | d :: _ => if N.eqb d sep then dirname else dirname ++ [sep]
      end
  end.

(** [glob.has_magic]: one of the characters star, question mark and
    opening bracket occurs. *)
Definition has_magic (s : text) : bool :=
  existsb (fun c => (c =? 42) || (c =? 63) || (c =? 91))%N s.

Definition ishidden (name : text) : bool :=
  match name with
  | c :: _ => N.eqb c dot
  | [] => false
  end.

Section Glob.

(** [fnmatch.fnmatchcase name pattern], the name filter of [glob]. *)
Variable fnmatch : text -> text -> bool.

Definition listdir (w : world) (dirname : path) (dironly : bool) : list text :=
  map fst (filter (fun e => negb dironly || snd e) (w_scandir w dirname)).

(** [glob._glob1]: the names of a directory that a pattern with wildcards
    matches, in the order [os.scandir] lists them. *)
Definition glob1 (w : world) (dirname : path) (pattern : text)
  (dironly : bool) : list text :=
  let names := listdir w dirname dironly in
  let names := if ishidden pattern then names
               else filter (fun x => negb (ishidden x)) names in
  filter (fun x => fnmatch x pattern) names.

(** [glob._glob0]: a name without wildcards is kept when it exists. *)
Definition glob0 (w : world) (dirname : path) (basename : text) : list text :=
  if w_lexists w (join dirname basename) then [basename] else [].

Definition glob_in_dir (w : world) (dirname : path) (basename : text)
  (dironly : bool) : list text :=
  if has_magic basename then glob1 w dirname basename dironly
  else glob0 w dirname basename.

(** The components from the first one with a wildcard on, expanded from
    the left over the directories found so far. *)
Fixpoint glob_from (w : world) (dirs : list path) (comps : list text)
  : list path :=
  match comps with
  | [] => dirs
  | c :: cs =>
      let dironly := match cs with [] => false | _ :: _ => true end in
      glob_from w
        (flat_map (fun d => map (join d) (glob_in_dir w d c dironly)) dirs)
        cs
  end.

Fixpoint literal_prefix (comps : list text) : list text * list text :=
  match comps with
  | [] => ([], [])
  | c :: cs =>
      if has_magic c then ([], comps)
      else let (pre, rest) := literal_prefix cs in (c :: pre, rest)
  end.

(** [glob.glob] on the string of an absolute path with these components:
    the leading components without wildcards are taken as they are, the
    others are expanded. *)
Definition glob (w : world) (comps : list text) : list path :=
  let (pre, rest) := literal_prefix comps in
  match rest with
  | [] => if w_lexists w (str_path pre) then [str_path pre] else []
  | _ :: _ => glob_from w [str_path pre] rest
  end.

(* ================================================================= *)
(** ** The script *)

Definition derived_data (w : world) : list text :=
  w_home w ++ [lit "Library"; lit "Developer"; lit "Xcode"; lit "DerivedData"].

Definition search_suffix : list text :=
  [lit "SourcePackages"; lit "checkouts"; lit "GoogleSignIn-iOS";
   lit "Package.swift"].

Definition find_package_file (w : world) : option path :=
  if negb (w_exists w (str_path (derived_data w))) then None
  else
    let pattern := derived_data w ++ lit "*" :: search_suffix in
    let matches := glob w pattern in
    match matches with
    | [] => None
    | p :: _ => Some p
    end.

Definition fix_package_swift (file_path : path) : io bool :=
  (content <- read_text file_path ;;
   let original_content := content in
   let content := rewrite content in
   if negb (text_eqb content original_content) then
     chmod file_path 420 ;;
     write_text file_path content ;;
     ret true
   else ret false)%io.

Definition msg_not_found : text :=
  lit "GoogleSignIn-iOS Package.swift not found.".
Definition msg_resolve_first : text :=
  lit "Make sure Xcode has resolved packages first.".
Definition msg_found (p : path) : text :=
  lit "Found Package.swift at: " ++ p.
Definition msg_fixed : text :=
  10003%N :: lit " Fixed deprecated syntax in GoogleSignIn-iOS Package.swift".
Definition msg_already : text :=
  lit "Package.swift already fixed or doesn't need fixing".

Definition main : io unit :=
  (package_file <- query find_package_file ;;
   match package_file with
   | Some ((_ :: _) as package_file) =>
       print (msg_found package_file) ;;
       changed <- fix_package_swift package_file ;;
       if changed then print msg_fixed else print msg_already
   | _ =>
       print msg_not_found ;;
       print msg_resolve_first
   end)%io.

End Glob.

(* ================================================================= *)
(** ** Specification-side notions *)

(** [run T s] is the scan with the fuel [str.replace] gives it. *)
Definition run (T : matcher) (s : text) : text := scan T (length s) s.

(** A matcher is regular when every match consumes a non-empty prefix [M]
    of the input and depends on nothing after [M]. *)
Definition regular (T : matcher) : Prop :=
  forall s out rest, T s = Some (out, rest) ->
    exists M, M <> [] /\ s = M ++ rest /\
              forall rest', T (M ++ rest') = Some (out, rest').

(** No match of [T] starts anywhere in [s]. *)
Definition clean (T : matcher) (s : text) : Prop :=
  forall t1 t2, s = t1 ++ t2 -> T t2 = None.

(** The matcher that [re.sub] scans with. *)
Definition re_matcher (r : regex) (tpl : list tpl_item) : matcher :=
  fun s => match match_at r false s with
           | Some (caps, rest) => Some (expand tpl caps, rest)
           | None => None
           end.

(** A pattern every match of which takes at least one character. *)
Fixpoint consuming (r : regex) : bool :=
  match r with
  | Str l => match l with [] => false | _ :: _ => true end
  | Rep n _ => match n with O => false | S _ => true end
  | Seq r1 r2 => consuming r1 || consuming r2
  | Grp _ r1 => consuming r1
  end.

Fixpoint takewhile (p : char -> bool) (s : text) : text :=
  match s with
  | c :: s' => if p c then c :: takewhile p s' else []
  | [] => []
  end.

Fixpoint dropwhile (p : char -> bool) (s : text) : text :=
  match s with
  | c :: s' => if p c then dropwhile p s' else s
  | [] => []
  end.

(** The texts the patterns of the source describe. *)
Definition spaces (ws : text) : Prop := Forall (fun c => is_space c = true) ws.
Definition quote_free (v : text) : Prop := ~ In dq v.

Definition name_arg (v : text) : text :=
  lit "name: " ++ dq :: v ++ dq :: lit ",".

(** A two-argument declaration head with the name value [v]. *)
Definition decl (ws1 v ws2 : text) : text :=
  lit ".package(" ++ ws1 ++ name_arg v ++ ws2 ++ lit "url:".

Definition decl_short : text := lit ".package(url:".

(** A function-call-style pin and its keyword form. *)
Definition pin_call (v : text) : text :=
  lit ".revision(" ++ dq :: v ++ dq :: lit ")".
Definition pin_keyword (v : text) : text :=
  lit "revision: " ++ dq :: v ++ [dq].

(** A target reference with an arbitrary value. *)
Definition reference (v : text) : text := lit "package: " ++ dq :: v ++ [dq].

(** The matchers of the two regular-expression steps. *)
Definition Tdecl (name : string) : matcher :=
  re_matcher (decl_pattern name) decl_repl.
Definition Trev : matcher := re_matcher revision_pattern revision_repl.

(** The six dependency names whose declarations are simplified. *)
Definition target_names : list string :=
  ["AppAuth"; "AppCheck"; "GTMAppAuth"; "GTMSessionFetcher";
   "GoogleUtilities"; "OCMock"]%string.

(** Letters only, as the names in the tables of the source are. *)
Definition alpha (c : char) : bool :=
  ((65 <=? c) && (c <=? 90) || (97 <=? c) && (c <=? 122))%N.
Definition alphabetic (v : text) : bool := forallb alpha v.


(** The five renames of the source, as pairs of reference values. *)
Definition rename_table : list (text * text) :=
  [(lit "AppAuth", lit "appauth-ios");
   (lit "AppCheck", lit "app-check");
   (lit "GTMAppAuth", lit "gtmappauth");
   (lit "GTMSessionFetcher", lit "gtm-session-fetcher");
   (lit "GoogleUtilities", lit "googleutilities")].

(** The renames of a table applied one after the other, in its order. *)
Definition rename_in_order (order : list (text * text)) (s : text) : text :=
  fold_left
    (fun c r => str_replace (reference (fst r)) (reference (snd r)) c)
    order s.

(** The renames of a table applied in a single scan: at each position the
    first entry whose old reference stands there is replaced. *)
Fixpoint multi (tbl : list (text * text)) : matcher :=
  fun s =>
    match tbl with
    | [] => None
    | (o, n) :: tbl' =>
        match strip_prefix (reference o) s with
        | Some rest => Some (reference n, rest)
        | None => multi tbl' s
        end
    end.

Definition rename_simultaneous (s : text) : text := run (multi rename_table) s.

(** [u] ends with [p]. *)
Fixpoint ends_with (p u : text) : bool :=
  text_eqb u p || match u with [] => false | _ :: u' => ends_with p u' end.

Definition pkg : text := lit "package: ".

Fixpoint assoc (tbl : list (text * text)) (x : text) : option text :=
  match tbl with
  | [] => None
  | (o, n) :: tbl' => if text_eqb o x then Some n else assoc tbl' x
  end.

(** The text before the first double quote, and the text after it. *)
Fixpoint split_quote (s : text) : option (text * text) :=
  match s with
  | [] => None
  | c :: s' =>
      if N.eqb c dq then Some ([], s')
      else match split_quote s' with
           | Some (u, Y) => Some (c :: u, Y)
           | None => None
           end
  end.

(** What a rename function [F] of a table does after a quote that follows
    the quote-free stretch [u]: when [u] ends with [package: ] and the next
    quoted value is an old value of the table, the value is exchanged. *)
Definition step (tbl : list (text * text)) (F : text -> text) (Y : text) : text :=
  match split_quote Y with
  | Some (x, y) =>
      match assoc tbl x with
      | Some x' => x' ++ dq :: F y
      | None => F Y
      end
  | None => F Y
  end.

Definition seg (tbl : list (text * text)) (F : text -> text) (u Y : text)
  : text :=
  if ends_with pkg u then step tbl F Y else F Y.

(** A function that renames like the table: it is described by its values
    on quote-free text and by what it does at each quote. *)
Definition renames_like (tbl : list (text * text)) (F : text -> text) : Prop :=
  (forall s, quote_free s -> F s = s) /\
  (forall u Y, quote_free u -> F (u ++ dq :: Y) = u ++ dq :: seg tbl F u Y).

(** A value that has no quote and does not end with [package: ]. *)
Definition plain (v : text) : Prop := quote_free v /\ ends_with pkg v = false.

Definition table_ok (tbl : list (text * text)) : Prop :=
  NoDup (map fst tbl) /\
  Forall plain (map fst tbl) /\
  Forall plain (map snd tbl) /\
  (forall n, In n (map snd tbl) -> ~ In n (map fst tbl)).

(** None of the patterns the rewriter looks for starts anywhere in [s]. *)
Definition untargeted (s : text) : Prop :=
  (forall name, In name target_names -> clean (Tdecl name) s) /\
  clean Trev s /\
  clean (multi rename_table) s.

(** The world after [fix_package_swift] has changed the file at [p]. *)
Definition rewritten (p : path) (f : file) (w : world) : world :=
  with_file p {| f_content := rewrite (f_content f); f_mode := 420 |}
    (EvWrite p (rewrite (f_content f)))
    (with_file p {| f_content := f_content f; f_mode := 420 |}
       (EvChmod p 420) w).

(** The world after some lines have been printed. *)
Definition printed (lines : list text) (w : world) : world :=
  {| w_home := w_home w;
     w_umask := w_umask w;
     w_files := w_files w;
     w_exists := w_exists w;
     w_lexists := w_lexists w;
     w_scandir := w_scandir w;
     w_journal := w_journal w;
     w_stdout := w_stdout w ++ lines |}.

(** [fnmatch.fnmatchcase] on patterns made of literal characters, stars
    and question marks: a star stands for any run of characters, a
    question mark for any one character. *)
Fixpoint wild (pat name : text) : bool :=
  match pat with
  | [] => match name with [] => true | _ :: _ => false end
  | c :: pat' =>
      if N.eqb c 42 then
        (fix star (name : text) : bool :=
           wild pat' name
           || match name with [] => false | _ :: name' => star name' end)
          name
      else
        match name with
        | [] => false
        | d :: name' => (N.eqb c 63 || N.eqb c d) && wild pat' name'
        end
  end.

Definition fnmatch_wild (name pat : text) : bool := wild pat name.

(** The search pattern of the locator, as path components. *)
Definition search_pattern (w : world) : list text :=
  derived_data w ++ lit "*" :: search_suffix.

(** Example worlds.  In [world_plain] the home directory is [/Users/dev]
    and its DerivedData holds one build directory with the manifest
    [content]. *)
Definition dir_is (comps : list string) (p : path) : bool :=
  text_eqb p (str_path (map lit comps)).

Definition manifest_path : path :=
  str_path (map lit ["Users"; "dev"; "Library"; "Developer"; "Xcode";
                     "DerivedData"; "App-abc"; "SourcePackages"; "checkouts";
                     "GoogleSignIn-iOS"; "Package.swift"]%string).

Definition world_plain (content : text) : world :=
  {| w_home := [lit "Users"; lit "dev"];
     w_umask := 18;
     w_files := fun p =>
       if text_eqb p manifest_path
       then Some {| f_content := content; f_mode := 292 |}
       else None;
     w_exists := fun _ => true;
     w_lexists := fun _ => true;
     w_scandir := fun p =>
       if dir_is ["Users"; "dev"; "Library"; "Developer"; "Xcode";
                  "DerivedData"]%string p
       then [(lit ".DS_Store", false); (lit "App-abc", true)]
       else [];
     w_journal := [];
     w_stdout := [] |}.

(** In [world_magic] the home directory is [/Users/a?c], and a sibling
    [/Users/abc] with a DerivedData of its own is listed before it. *)
Definition world_magic : world :=
  {| w_home := [lit "Users"; lit "a?c"];
     w_umask := 18;
     w_files := fun _ => None;
     w_exists := fun _ => true;
     w_lexists := fun _ => true;
     w_scandir := fun p =>
       if dir_is ["Users"]%string p
       then [(lit "abc", true); (lit "a?c", true)]
       else if dir_is ["Users"; "abc"; "Library"; "Developer"; "Xcode";
                       "DerivedData"]%string p
       then [(lit "Other-xyz", true)]
       else [];
     w_journal := [];
     w_stdout := [] |}.

(** A manifest fragment with one pattern of each kind. *)
Definition sample_manifest : text :=
  decl [] (lit "AppAuth") [32%N] ++ 32%N :: dq :: lit "https://x" ++ dq
    :: lit ", " ++ pin_call (lit "1.2.3") ++ lit ") " ++ ref "AppAuth".

(** No pin of [x] has a parenthesis in its value. *)
Definition paren_free_pins (x : text) : Prop :=
  forall a v b, x = a ++ pin_call v ++ b -> quote_free v ->
    ~ In 40%N v /\ ~ In 41%N v.

(** The last characters of [a] and [b] agree as far as the shorter goes. *)
Definition tails_agree (a b : text) : bool :=
  let n := Nat.min (length a) (length b) in
  text_eqb (firstn n (rev a)) (firstn n (rev b)).

(** A check of [paren_free_pins] by evaluation: at every position where a
    pin stands, its value is looked at. *)
Definition no_paren (v : text) : bool :=
  forallb (fun c => negb (N.eqb c 40) && negb (N.eqb c 41)) v.

Fixpoint pins_ok (x : text) : bool :=
  match x with
  | [] => true
  | _ :: x' =>
      match strip_prefix (lit ".revision(" ++ [dq]) x with
      | Some r =>
          match strip_prefix (dq :: lit ")") (dropwhile not_dq r) with
          | Some _ => no_paren (takewhile not_dq r)
          | None => true
          end
      | None => true
      end && pins_ok x'
  end.

(** Whether the components [comps] exist one below the other, starting in
    the directory [d]. *)
Fixpoint all_exist (w : world) (d : path) (comps : list text) : bool :=
  match comps with
  | [] => true
  | c :: cs => w_lexists w (join d c) && all_exist w (join d c) cs
  end.

(** An entry of the DerivedData listing that the locator accepts as a build
    directory: a directory whose name does not begin with a dot and below
    which the four fixed components exist. *)
Definition build_candidate (w : world) (base : path) (e : text * bool) : bool :=
  snd e && negb (ishidden (fst e))
  && all_exist w (join base (fst e)) search_suffix.

(** The manifest below the build directory [d] of [base]. *)
Definition manifest_in (base : path) (d : text) : path :=
  fold_left join search_suffix (join base d).


(** [a] and [b] agree on [u] and go on with the different characters [c]
    and [d]. *)
Definition differ_at (u : text) (c d : char) (a b : text) : Prop :=
  c <> d /\ exists a' b', a = u ++ c :: a' /\ b = u ++ d :: b'.

(** The characters at which a match and its replacement part: a white
    space, [n], the dot, [A] or [G] in the match, and [u], [r], [a] or [g]
    in the replacement. *)
Definition old_char (c : char) : bool :=
  (is_space c || (c =? 110) || (c =? 46) || (c =? 65) || (c =? 71))%N.
Definition new_char (d : char) : bool :=
  ((d =? 117) || (d =? 114) || (d =? 97) || (d =? 103))%N.

(** A matcher whose replacement parts from the match at such a pair of
    characters. *)
Definition swapping (T : matcher) : Prop :=
  forall t out rest, T t = Some (out, rest) ->
    exists pre c d t' out',
      old_char c = true /\ new_char d = true /\
      t = pre ++ c :: t' /\ out = pre ++ d :: out'.

(** A function that leaves its argument as it is or changes it first at
    such a pair of characters. *)
Definition marking (F : text -> text) : Prop :=
  forall x, F x = x \/
    exists u c d, old_char c = true /\ new_char d = true /\
                  differ_at u c d x (F x).

(** The declaration substitutions for the names of a list, one after the
    other in its order. *)
Definition simplify_in_order (order : list string) (s : text) : text :=
  fold_left (fun c name => re_sub (decl_pattern name) decl_repl c) order s.

(* ================================================================= *)
(** ** Lists and prefixes *)

Lemma strip_prefix_app (p r : text) : strip_prefix p (p ++ r) = Some r.
Proof.
  induction p as [|c p IH]; simpl; [reflexivity|].
  now rewrite N.eqb_refl.
Qed.

Lemma strip_prefix_Some (p s r : text) :
  strip_prefix p s = Some r -> s = p ++ r.
Proof.
  revert s; induction p as [|c p IH]; simpl; intros s H.
  - now inversion H.
  - destruct s as [|d s]; [discriminate|].
    destruct (N.eqb_spec c d) as [->|]; [|discriminate].
    now rewrite (IH _ H).
Qed.

Lemma strip_prefix_iff (p s r : text) :
  strip_prefix p s = Some r <-> s = p ++ r.
Proof.
  split; [apply strip_prefix_Some|intros ->; apply strip_prefix_app].
Qed.

Lemma strip_prefix_None (p s : text) :
  strip_prefix p s = None -> forall r, s <> p ++ r.
Proof.
  intros H r ->. now rewrite strip_prefix_app in H.
Qed.

(** Two ways of cutting one list: one cut is left of the other. *)
Lemma app_cut {A : Type} (a b c d : list A) :
  a ++ b = c ++ d ->
  (exists k, c = a ++ k /\ b = k ++ d) \/ (exists k, a = c ++ k /\ d = k ++ b).
Proof.
  revert c; induction a as [|x a IH]; intros c H; simpl in *.
  - left; now exists c.
  - destruct c as [|y c]; simpl in *.
    + right; now exists (x :: a).
    + injection H as -> H. destruct (IH _ H) as [[k [-> ->]]|[k [-> ->]]].
      * left; now exists k.
      * right; now exists k.
Qed.

Lemma app_cut_le {A : Type} (a b c d : list A) :
  a ++ b = c ++ d -> length a <= length c ->
  exists k, c = a ++ k /\ b = k ++ d.
Proof.
  intros H Hle. destruct (app_cut _ _ _ _ H) as [?|[k [-> ->]]]; [assumption|].
  rewrite length_app in Hle. destruct k; [|simpl in Hle; lia].
  exists []. now rewrite !app_nil_r.
Qed.

(** A character that does not occur in [a] cannot be reached by [a]. *)
Lemma notin_cut {A : Type} (x : A) (a b c d : list A) :
  a ++ b = c ++ x :: d -> ~ In x a ->
  exists k, c = a ++ k /\ b = k ++ x :: d.
Proof.
  intros H Hn. destruct (app_cut _ _ _ _ H) as [?|[k [-> Hd]]]; [assumption|].
  destruct k as [|y k].
  - exists []. simpl in Hd. subst b. now rewrite !app_nil_r.
  - simpl in Hd. injection Hd as -> _. exfalso. apply Hn.
    apply in_or_app; right; now left.
Qed.

(** The first occurrence of a character is where it is. *)
Lemma first_occurrence {A : Type} (x : A) (a b c d : list A) :
  a ++ x :: b = c ++ x :: d -> ~ In x a -> ~ In x c -> a = c /\ b = d.
Proof.
  intros H Ha Hc.
  destruct (notin_cut _ _ _ _ _ H Ha) as [k [-> Hk]].
  destruct k as [|y k].
  - rewrite app_nil_r. simpl in Hk. now injection Hk.
  - exfalso. simpl in Hk. injection Hk as <- _. apply Hc.
    apply in_or_app; right; now left.
Qed.

(* ================================================================= *)
(** ** Scanning with a regular matcher *)

Section Scan.

Variable T : matcher.
Hypothesis T_regular : regular T.

Lemma regular_shorter {s out rest} :
  T s = Some (out, rest) -> length rest < length s.
Proof.
  intros H. destruct (T_regular _ _ _ H) as [M [HM [-> _]]].
  rewrite length_app. destruct M; [congruence|simpl; lia].
Qed.

Lemma regular_nil : T [] = None.
Proof.
  destruct (T []) as [[out rest]|] eqn:E; [|reflexivity].
  apply regular_shorter in E. simpl in E. lia.
Qed.

Lemma scan_fuel f1 : forall f2 s,
  length s <= f1 -> length s <= f2 -> scan T f1 s = scan T f2 s.
Proof.
  induction f1 as [|f1 IH]; intros f2 s H1 H2.
  - destruct s; [|simpl in H1; lia].
    destruct f2; simpl; [reflexivity|]. now rewrite regular_nil.
  - destruct f2 as [|f2].
    + destruct s; [|simpl in H2; lia]. simpl. now rewrite regular_nil.
    + simpl. destruct (T s) as [[out rest]|] eqn:E.
      * apply regular_shorter in E. f_equal. apply IH; lia.
      * destruct s as [|c s]; [reflexivity|]. simpl in *. f_equal.
        apply IH; lia.
Qed.

Lemma run_nil : run T [] = [].
Proof. reflexivity. Qed.

Lemma run_match {s out rest} :
  T s = Some (out, rest) -> run T s = out ++ run T rest.
Proof.
  intros H. pose proof (regular_shorter H) as Hlt. unfold run.
  destruct (length s) as [|n] eqn:En; [lia|].
  simpl. rewrite H. f_equal. apply scan_fuel; lia.
Qed.

Lemma run_copy c s : T (c :: s) = None -> run T (c :: s) = c :: run T s.
Proof.
  intros H. unfold run. simpl. now rewrite H.
Qed.

(** A stretch [d] in which no match starts is copied. *)
Lemma run_skip d y :
  (forall t1 t2, d = t1 ++ t2 -> t2 <> [] -> T (t2 ++ y) = None) ->
  run T (d ++ y) = d ++ run T y.
Proof.
  induction d as [|c d IH]; intros H; [reflexivity|].
  simpl. rewrite run_copy.
  - f_equal. apply IH. intros t1 t2 -> Hne. now apply (H (c :: t1) t2).
  - apply (H [] (c :: d)); [reflexivity|discriminate].
Qed.

Lemma run_clean s : clean T s -> run T s = s.
Proof.
  intros H. rewrite <- (app_nil_r s) at 1. rewrite run_skip.
  - now rewrite run_nil, app_nil_r.
  - intros t1 t2 -> _. rewrite app_nil_r. now apply (H t1).
Qed.

(** When no match that starts in [a] reaches into [b], the two parts are
    scanned independently. *)
Lemma run_app a b :
  (forall t1 t2 out rest, a = t1 ++ t2 -> t2 <> [] ->
     T (t2 ++ b) = Some (out, rest) -> length b <= length rest) ->
  run T (a ++ b) = run T a ++ run T b.
Proof.
  remember (length a) as n eqn:En. revert a En.
  induction n as [n IH] using lt_wf_ind. intros a En H.
  destruct a as [|c a]; [reflexivity|].
  destruct (T ((c :: a) ++ b)) as [[out rest]|] eqn:E.
  - assert (Hle : length b <= length rest)
      by (apply (H [] (c :: a) out rest); [reflexivity|discriminate|exact E]).
    destruct (T_regular _ _ _ E) as [M [HM [HMr HMx]]].
    assert (exists u, c :: a = M ++ u /\ rest = u ++ b) as [u [Hu ->]].
    { destruct (app_cut _ _ _ _ HMr) as [[k [Hk1 Hk2]]|[k [Hk1 Hk2]]].
      - rewrite Hk2, length_app in Hle. destruct k; [|simpl in Hle; lia].
        exists []. rewrite app_nil_r in Hk1. simpl in Hk2.
        rewrite app_nil_r. now split.
      - exists k. now split. }
    rewrite (run_match E).
    assert (Ea : T (c :: a) = Some (out, u)) by (rewrite Hu; apply HMx).
    rewrite (run_match Ea), <- app_assoc. f_equal.
    apply (IH (length u)); [|reflexivity|].
    + subst n. apply regular_shorter in Ea. exact Ea.
    + intros t1 t2 o r -> Hne Ht. apply (H (M ++ t1) t2 o r); [|assumption|assumption].
      rewrite Hu. now rewrite app_assoc.
  - assert (Ea : T (c :: a) = None).
    { destruct (T (c :: a)) as [[out u]|] eqn:Ea; [|reflexivity].
      destruct (T_regular _ _ _ Ea) as [M [HM [HMr HMx]]].
      rewrite HMr, <- app_assoc, HMx in E. discriminate. }
    simpl in E |- *. rewrite (run_copy _ _ E), (run_copy _ _ Ea). simpl. f_equal.
    apply (IH (length a)); [subst n; simpl; lia|reflexivity|].
    intros t1 t2 o r -> Hne Ht. now apply (H (c :: t1) t2 o r).
Qed.

End Scan.

(* ================================================================= *)
(** ** The matching engine *)

Lemma strip_prefix_length p s rest :
  strip_prefix p s = Some rest -> length s = length p + length rest.
Proof.
  intros H. apply strip_prefix_Some in H. subst. apply length_app.
Qed.

Lemma rep_ext {A} p (k k' : text -> option A) s : forall n,
  (forall rest, length rest <= length s -> k rest = k' rest) ->
  rep p k n s = rep p k' n s.
Proof.
  induction s as [|c s IH]; intros n H; simpl.
  - destruct n; [apply H; simpl; lia|reflexivity].
  - rewrite (IH (pred n)) by (intros; apply H; simpl; lia).
    rewrite (H (c :: s)) by lia. reflexivity.
Qed.

Lemma rep_ext_lt {A} p (k k' : text -> option A) s : forall n,
  (forall rest, length rest < length s -> k rest = k' rest) ->
  rep p k (S n) s = rep p k' (S n) s.
Proof.
  intros n H. destruct s as [|c s]; [reflexivity|]. simpl.
  rewrite (rep_ext p k k' s n) by (intros; apply H; simpl; lia).
  reflexivity.
Qed.

Lemma m_ext {A} r : forall (k k' : captures -> text -> option A) caps s,
  (forall caps1 rest, length rest <= length s -> k caps1 rest = k' caps1 rest) ->
  m r k caps s = m r k' caps s.
Proof.
  induction r as [l|n p|r1 IH1 r2 IH2|i r1 IH1]; intros k k' caps s H; simpl.
  - destruct (strip_prefix l s) as [rest|] eqn:E; [|reflexivity].
    apply H. apply strip_prefix_length in E. lia.
  - apply rep_ext. intros; now apply H.
  - apply IH1. intros caps1 rest Hle. apply IH2.
    intros caps2 rest2 Hle2. apply H. lia.
  - apply IH1. intros caps1 rest Hle. now apply H.
Qed.

Lemma m_ext_lt {A} r : forall (k k' : captures -> text -> option A) caps s,
  consuming r = true ->
  (forall caps1 rest, length rest < length s -> k caps1 rest = k' caps1 rest) ->
  m r k caps s = m r k' caps s.
Proof.
  induction r as [l|n p|r1 IH1 r2 IH2|i r1 IH1]; intros k k' caps s Hc H; simpl in *.
  - destruct (strip_prefix l s) as [rest|] eqn:E; [|reflexivity].
    apply H. apply strip_prefix_length in E. destruct l; [discriminate|simpl in E; lia].
  - destruct n; [discriminate|]. apply rep_ext_lt. intros; now apply H.
  - destruct (consuming r1) eqn:E1.
    + apply IH1; [reflexivity|]. intros caps1 rest Hlt. apply m_ext.
      intros caps2 rest2 Hle. apply H. lia.
    + apply m_ext. intros caps1 rest Hle. apply IH2; [assumption|].
      intros caps2 rest2 Hlt. apply H. lia.
  - apply IH1; [assumption|]. intros caps1 rest Hlt. now apply H.
Qed.

Lemma match_at_advance r adv s :
  consuming r = true -> match_at r adv s = match_at r false s.
Proof.
  intros Hc. unfold match_at. apply m_ext_lt; [assumption|].
  intros caps1 rest Hlt. simpl.
  destruct (Nat.eqb_spec (length rest) (length s)); [lia|].
  now rewrite andb_false_r.
Qed.

(** On a consuming pattern the loop of [re.sub] is the plain scan. *)
Lemma sub_loop_scan r tpl : consuming r = true ->
  forall fuel adv s, sub_loop r tpl fuel adv s = scan (re_matcher r tpl) fuel s.
Proof.
  intros Hc. induction fuel as [|fuel IH]; intros adv s; [reflexivity|].
  simpl. unfold re_matcher. rewrite (match_at_advance r adv s Hc).
  destruct (match_at r false s) as [[caps rest]|].
  - now rewrite IH.
  - destruct s; [reflexivity|]. now rewrite IH.
Qed.

Lemma re_sub_run r tpl s :
  consuming r = true -> regular (re_matcher r tpl) ->
  re_sub r tpl s = run (re_matcher r tpl) s.
Proof.
  intros Hc Hr. unfold re_sub, run. rewrite sub_loop_scan by assumption.
  apply scan_fuel; [assumption|lia|lia].
Qed.

Lemma takewhile_dropwhile p s : takewhile p s ++ dropwhile p s = s.
Proof.
  induction s as [|c s IH]; simpl; [reflexivity|].
  destruct (p c); simpl; [now rewrite IH|reflexivity].
Qed.

Lemma takewhile_all p s : Forall (fun c => p c = true) (takewhile p s).
Proof.
  induction s as [|c s IH]; simpl; [constructor|].
  destruct (p c) eqn:E; constructor; assumption.
Qed.

Lemma takewhile_app p ws t :
  Forall (fun c => p c = true) ws ->
  (forall c t1, t = c :: t1 -> p c = false) ->
  takewhile p (ws ++ t) = ws /\ dropwhile p (ws ++ t) = t.
Proof.
  intros Hws Ht. induction Hws as [|c ws Hc _ IH]; simpl.
  - destruct t as [|c t1]; simpl; [now split|].
    rewrite (Ht c t1 eq_refl). now split.
  - rewrite Hc. destruct IH as [-> ->]. now split.
Qed.

(** When the continuation cannot start with a character of the class, the
    greedy repeat takes the whole run and never backtracks. *)
Lemma rep_greedy {A} p (k : text -> option A) s : forall n,
  (forall c t, p c = true -> k (c :: t) = None) ->
  rep p k n s =
  if n <=? length (takewhile p s) then k (dropwhile p s) else None.
Proof.
  induction s as [|c s IH]; intros n H; simpl.
  - destruct n; reflexivity.
  - destruct (p c) eqn:Ec.
    + rewrite (IH (pred n) H). simpl.
      destruct n as [|n]; simpl.
      * destruct (k (dropwhile p s)) eqn:Ek; [reflexivity|].
        now apply H.
      * destruct (n <=? length (takewhile p s)); [|reflexivity].
        destruct (k (dropwhile p s)); reflexivity.
    + destruct n; reflexivity.
Qed.

(* ================================================================= *)
(** ** What the two patterns match *)

Lemma strip_prefix_head a p c t : N.eqb a c = false -> strip_prefix (a :: p) (c :: t) = None.
Proof. intros H. simpl. now rewrite H. Qed.

Lemma class_head p a c : p a = false -> p c = true -> N.eqb a c = false.
Proof.
  intros Ha Hc. destruct (N.eqb_spec a c) as [->|]; [congruence|reflexivity].
Qed.

(** The shape of a declaration pattern: three literal runs separated by
    two greedy runs of white space. *)
Lemma spaced_literals {X} (A B C : text) b c (x : X) s :
  is_space b = false -> is_space c = false ->
  forall res,
  match strip_prefix A s with
  | Some s1 =>
      rep is_space
        (fun r1 => match strip_prefix (b :: B) r1 with
                   | Some r2 =>
                       rep is_space
                         (fun r3 => match strip_prefix (c :: C) r3 with
                                    | Some r4 => Some (x, r4)
                                    | None => None
                                    end) 0 r2
                   | None => None
                   end) 0 s1
  | None => None
  end = Some res <->
  fst res = x /\
  exists ws1 ws2, spaces ws1 /\ spaces ws2 /\
    s = A ++ ws1 ++ (b :: B) ++ ws2 ++ (c :: C) ++ snd res.
Proof.
  intros Hb Hc res.
  assert (HB : forall d t, is_space d = true ->
             match strip_prefix (b :: B) (d :: t) with
             | Some r2 =>
                 rep is_space
                   (fun r3 => match strip_prefix (c :: C) r3 with
                              | Some r4 => Some (x, r4)
                              | None => None
                              end) 0 r2
             | None => None
             end = None).
  { intros d t Hd. now rewrite strip_prefix_head by (eapply class_head; eassumption). }
  assert (HC : forall d t, is_space d = true ->
             match strip_prefix (c :: C) (d :: t) with
             | Some r4 => Some (x, r4)
             | None => None
             end = None).
  { intros d t Hd. now rewrite strip_prefix_head by (eapply class_head; eassumption). }
  split.
  - destruct (strip_prefix A s) as [s1|] eqn:EA; [|discriminate].
    rewrite (rep_greedy _ _ _ _ HB). cbn [Nat.leb].
    destruct (strip_prefix (b :: B) (dropwhile is_space s1)) as [r2|] eqn:EB; [|discriminate].
    rewrite (rep_greedy _ _ _ _ HC). cbn [Nat.leb].
    destruct (strip_prefix (c :: C) (dropwhile is_space r2)) as [r4|] eqn:EC; [|discriminate].
    intros H. inversion H; subst res; clear H. cbn [fst snd]. split; [reflexivity|].
    exists (takewhile is_space s1), (takewhile is_space r2).
    split; [apply takewhile_all|]. split; [apply takewhile_all|].
    apply strip_prefix_Some in EA, EB, EC.
    rewrite <- EC, takewhile_dropwhile, <- EB, takewhile_dropwhile. exact EA.
  - intros [Hx [ws1 [ws2 [H1 [H2 Hs]]]]]. destruct res as [x' rest]. cbn [fst snd] in *.
    subst x' s. rewrite strip_prefix_app.
    rewrite (rep_greedy _ _ _ _ HB). cbn [Nat.leb].
    destruct (takewhile_app is_space ws1 ((b :: B) ++ ws2 ++ (c :: C) ++ rest) H1) as [_ ->].
    { intros d t E. injection E as <- _. exact Hb. }
    rewrite strip_prefix_app.
    rewrite (rep_greedy _ _ _ _ HC). cbn [Nat.leb].
    destruct (takewhile_app is_space ws2 ((c :: C) ++ rest) H2) as [_ ->].
    { intros d t E. injection E as <- _. exact Hc. }
    now rewrite strip_prefix_app.
Qed.

Lemma decl_app ws1 v ws2 rest :
  decl ws1 v ws2 ++ rest =
  lit ".package(" ++ ws1 ++ name_arg v ++ ws2 ++ lit "url:" ++ rest.
Proof. unfold decl. now rewrite <- !app_assoc. Qed.

Lemma decl_matcher_iff name s out rest :
  re_matcher (decl_pattern name) decl_repl s = Some (out, rest) <->
  out = decl_short /\
  exists ws1 ws2, spaces ws1 /\ spaces ws2 /\ s = decl ws1 (lit name) ws2 ++ rest.
Proof.
  unfold re_matcher, match_at, decl_pattern. cbn [m andb].
  change (lit "name: " ++ dq :: lit name ++ dq :: lit ",") with (name_arg (lit name)).
  pose proof (spaced_literals (lit ".package(") (lit "ame: " ++ dq :: lit name ++ dq :: lit ",")
                (lit "rl:") 110%N 117%N (@nil (nat * text)) s eq_refl eq_refl) as H.
  change (110%N :: lit "ame: " ++ dq :: lit name ++ dq :: lit ",") with (name_arg (lit name)) in H.
  change (117%N :: lit "rl:") with (lit "url:") in H.
  split.
  - intros E.
    match type of E with match ?X with _ => _ end = _ => destruct X as [[caps r]|] eqn:EX end;
      [|discriminate].
    apply H in EX. cbn [fst snd] in EX. destruct EX as [-> [ws1 [ws2 [H1 [H2 Hs]]]]].
    injection E as <- <-. split; [reflexivity|].
    exists ws1, ws2. now rewrite decl_app.
  - intros [-> [ws1 [ws2 [H1 [H2 Hs]]]]].
    rewrite decl_app in Hs.
    match goal with
    | |- match ?X with _ => _ end = _ =>
        replace X with (Some (@nil (nat * text), rest)); [reflexivity|]
    end.
    symmetry. apply (proj2 (H ([], rest))).
    split; [reflexivity|]. now exists ws1, ws2.
Qed.

Lemma decl_nonempty ws1 v ws2 : decl ws1 v ws2 <> [].
Proof. discriminate. Qed.

Lemma decl_regular name : regular (re_matcher (decl_pattern name) decl_repl).
Proof.
  intros s out rest H. apply decl_matcher_iff in H.
  destruct H as [-> [ws1 [ws2 [H1 [H2 ->]]]]].
  exists (decl ws1 (lit name) ws2). split; [apply decl_nonempty|].
  split; [reflexivity|]. intros rest'. apply decl_matcher_iff.
  split; [reflexivity|]. now exists ws1, ws2.
Qed.

Lemma firstn_takewhile p s :
  firstn (length s - length (dropwhile p s)) s = takewhile p s.
Proof.
  rewrite <- (takewhile_dropwhile p s) at 1 3.
  rewrite length_app, Nat.add_sub, firstn_app, Nat.sub_diag, firstn_all.
  simpl. apply app_nil_r.
Qed.

Lemma not_dq_quote_free v :
  Forall (fun c => not_dq c = true) v <-> quote_free v.
Proof.
  unfold quote_free, not_dq. rewrite Forall_forall. split.
  - intros H Hin. specialize (H _ Hin). now rewrite N.eqb_refl in H.
  - intros H c Hin. destruct (N.eqb_spec c dq) as [->|]; [contradiction|reflexivity].
Qed.

Lemma pin_call_app v rest :
  pin_call v ++ rest = (lit ".revision(" ++ [dq]) ++ v ++ (dq :: lit ")") ++ rest.
Proof. unfold pin_call. rewrite <- !app_assoc. simpl. now rewrite <- !app_assoc. Qed.

Lemma revision_matcher_iff s out rest :
  re_matcher revision_pattern revision_repl s = Some (out, rest) <->
  exists v, v <> [] /\ quote_free v /\ s = pin_call v ++ rest /\ out = pin_keyword v.
Proof.
  unfold re_matcher, match_at, revision_pattern. cbn [m andb].
  assert (HK : forall s1 d t, not_dq d = true ->
            match strip_prefix (dq :: lit ")") (d :: t) with
            | Some r =>
                @Some (captures * text)
                  ([(1, firstn (length s1 - length (d :: t)) s1)], r)
            | None => None
            end = None).
  { intros s1 d t Hd. rewrite strip_prefix_head; [reflexivity|].
    unfold not_dq in Hd. rewrite N.eqb_sym. now destruct (N.eqb d dq). }
  split.
  - intros E.
    destruct (strip_prefix (lit ".revision(" ++ [dq]) s) as [s1|] eqn:E1; [|discriminate].
    rewrite (rep_greedy _ _ _ _ (HK s1)) in E.
    destruct (1 <=? length (takewhile not_dq s1)) eqn:Elen; [|discriminate].
    destruct (strip_prefix (dq :: lit ")") (dropwhile not_dq s1)) as [r|] eqn:E2; [|discriminate].
    injection E as <- <-. rewrite firstn_takewhile.
    exists (takewhile not_dq s1). apply Nat.leb_le in Elen.
    split; [destruct (takewhile not_dq s1); [simpl in Elen; lia|discriminate]|].
    split; [apply not_dq_quote_free, takewhile_all|].
    apply strip_prefix_Some in E1, E2. split.
    + rewrite pin_call_app, <- E2, takewhile_dropwhile. exact E1.
    + unfold pin_keyword, expand. simpl. reflexivity.
  - intros [v [Hne [Hq [-> ->]]]]. rewrite pin_call_app, strip_prefix_app.
    rewrite (rep_greedy _ _ _ _ (HK _)).
    destruct (takewhile_app not_dq v ((dq :: lit ")") ++ rest)) as [Htw Hdw].
    { now apply not_dq_quote_free. }
    { intros d t E. injection E as <- _. reflexivity. }
    rewrite firstn_takewhile, Htw, Hdw, strip_prefix_app.
    destruct v as [|c v]; [congruence|]. cbn [length Nat.leb].
    unfold pin_keyword, expand. simpl. reflexivity.
Qed.

Arguments lit : simpl never.

(* ================================================================= *)
(** ** Characters that cannot occur *)

Lemma In_existsb (c : char) (l : text) : In c l -> existsb (N.eqb c) l = true.
Proof.
  intros H. apply existsb_exists. exists c. split; [assumption|apply N.eqb_refl].
Qed.

(** Refutes [In c l] for a closed [l] by evaluation. *)
Ltac absent H := apply In_existsb in H; vm_compute in H; discriminate H.

Lemma alphabetic_notin v c : alphabetic v = true -> alpha c = false -> ~ In c v.
Proof.
  unfold alphabetic. rewrite forallb_forall. intros H Hc Hin.
  specialize (H _ Hin). congruence.
Qed.

Lemma spaces_notin ws c : spaces ws -> is_space c = false -> ~ In c ws.
Proof.
  unfold spaces. rewrite Forall_forall. intros H Hc Hin.
  specialize (H _ Hin). congruence.
Qed.

Lemma cons_inv {A} (x : A) a b : x :: a = x :: b -> a = b.
Proof. intros H. now injection H. Qed.

Lemma single_head {A} (x : A) P t1 t2 :
  x :: P = t1 ++ x :: t2 -> ~ In x P -> t1 = [] /\ t2 = P.
Proof.
  intros H Hn. destruct t1 as [|y t1]; simpl in H.
  - injection H as ->. now split.
  - injection H as <- ->. exfalso. apply Hn. apply in_or_app. right. now left.
Qed.

(** Where a character can sit in [x :: P ++ v ++ Q] when [P] and [Q] are
    free of it: at the head or inside [v]. *)
Lemma positions {A} (x : A) P v Q t1 t2 :
  x :: P ++ v ++ Q = t1 ++ x :: t2 -> ~ In x P -> ~ In x Q ->
  t1 = [] \/ exists v1 v2, v = v1 ++ x :: v2 /\ t1 = x :: P ++ v1 /\ t2 = v2 ++ Q.
Proof.
  intros H HP HQ. destruct t1 as [|y t1]; [now left|right].
  simpl in H. injection H as <- H.
  destruct (notin_cut _ _ _ _ _ H HP) as [k [-> Hk]].
  destruct (app_cut _ _ _ _ Hk) as [[k' [-> Hk']]|[k' [-> Hk']]].
  - exfalso. apply HQ. rewrite Hk'. apply in_or_app. right. now left.
  - destruct k' as [|z k'].
    + exfalso. apply HQ. simpl in Hk'. rewrite <- Hk'. now left.
    + simpl in Hk'. injection Hk' as <- ->. exists k, k'. repeat split.
Qed.

(* ================================================================= *)
(** ** Declarations *)

Lemma name_arg_app v Z :
  name_arg v ++ Z = (lit "name: " ++ [dq]) ++ v ++ (dq :: lit ",") ++ Z.
Proof.
  unfold name_arg. repeat rewrite <- app_assoc. simpl.
  repeat rewrite <- app_assoc. reflexivity.
Qed.

Lemma decl_dot ws1 v ws2 :
  decl ws1 v ws2 = dot :: (lit "package(" ++ ws1 ++ lit "name: " ++ [dq]) ++ v ++ (dq :: lit "," ++ ws2 ++ lit "url:").
Proof.
  unfold decl, name_arg. repeat rewrite <- app_assoc. simpl.
  repeat rewrite <- app_assoc. reflexivity.
Qed.

Lemma decl_before_free ws1 : spaces ws1 -> ~ In dot (lit "package(" ++ ws1 ++ lit "name: " ++ [dq]).
Proof.
  intros H Hin. apply in_app_or in Hin. destruct Hin as [Hin|Hin]; [absent Hin|].
  apply in_app_or in Hin. destruct Hin as [Hin|Hin]; [|absent Hin].
  now apply (spaces_notin ws1 dot H).
Qed.

Lemma decl_after_free ws2 : spaces ws2 -> ~ In dot (dq :: lit "," ++ ws2 ++ lit "url:").
Proof.
  intros H Hin. destruct Hin as [Hin|Hin]; [discriminate|].
  apply in_app_or in Hin. destruct Hin as [Hin|Hin]; [absent Hin|].
  apply in_app_or in Hin. destruct Hin as [Hin|Hin]; [|absent Hin].
  now apply (spaces_notin ws2 dot H).
Qed.

(** A match of a declaration pattern begins with its only dot. *)
Lemma Tdecl_dot name s out rest :
  alphabetic (lit name) = true -> Tdecl name s = Some (out, rest) ->
  exists M, s = dot :: M ++ rest /\ ~ In dot M.
Proof.
  intros Ha H. apply decl_matcher_iff in H.
  destruct H as [_ [ws1 [ws2 [H1 [H2 ->]]]]]. rewrite decl_dot.
  eexists. split; [reflexivity|].
  intros Hin. apply in_app_or in Hin. destruct Hin as [Hin|Hin].
  - now apply (decl_before_free ws1 H1).
  - apply in_app_or in Hin. destruct Hin as [Hin|Hin].
    + now apply (alphabetic_notin _ dot Ha).
    + now apply (decl_after_free ws2 H2).
Qed.

(** No declaration match reaches across a dot. *)
Lemma run_Tdecl_dot name a b :
  alphabetic (lit name) = true ->
  run (Tdecl name) (a ++ dot :: b) = run (Tdecl name) a ++ run (Tdecl name) (dot :: b).
Proof.
  intros Ha. apply run_app; [apply decl_regular|].
  intros t1 t2 out rest -> Hne H.
  destruct (Tdecl_dot _ _ _ _ Ha H) as [M [HM Hn]].
  destruct t2 as [|c t2]; [congruence|]. simpl in HM. injection HM as -> HM.
  symmetry in HM. destruct (notin_cut _ _ _ _ _ HM Hn) as [k [-> ->]].
  rewrite length_app. lia.
Qed.

(** The name of a matched declaration is the name of the pattern. *)
Lemma decl_same_name ws1 v ws2 y ws1' w ws2' rest :
  spaces ws1 -> spaces ws1' -> quote_free v -> quote_free w ->
  decl ws1 v ws2 ++ y = decl ws1' w ws2' ++ rest -> v = w.
Proof.
  intros H1 H1' Hv Hw H. rewrite !decl_app in H. apply app_inv_head in H.
  rewrite !name_arg_app in H. rewrite !(app_assoc _ (lit "name: " ++ [dq])) in H.
  rewrite !(app_assoc _ (lit "name: ") [dq]) in H.
  change (?a ++ [dq]) with (a ++ [dq]) in H.
  rewrite <- !(app_assoc _ [dq]) in H. simpl ([dq] ++ _) in H.
  apply first_occurrence in H.
  - destruct H as [_ H]. change ((dq :: lit ",") ++ ?Z) with (dq :: lit "," ++ Z) in H.
    apply first_occurrence in H; [tauto|assumption|assumption].
  - intros Hin. apply in_app_or in Hin. destruct Hin as [Hin|Hin]; [|absent Hin].
    now apply (spaces_notin ws1 dq H1).
  - intros Hin. apply in_app_or in Hin. destruct Hin as [Hin|Hin]; [|absent Hin].
    now apply (spaces_notin ws1' dq H1').
Qed.

Lemma decl_quote ws1 v ws2 rest :
  decl ws1 v ws2 ++ rest =
  dot :: (lit "package(" ++ ws1 ++ lit "name: ")
      ++ dq :: v ++ dq :: (lit "," ++ ws2 ++ lit "url:" ++ rest).
Proof.
  unfold decl, name_arg. repeat rewrite <- app_assoc. simpl.
  repeat rewrite <- app_assoc. reflexivity.
Qed.

Lemma decl_before_quote_free ws1 :
  spaces ws1 -> quote_free (lit "package(" ++ ws1 ++ lit "name: ").
Proof.
  intros H Hin. apply in_app_or in Hin. destruct Hin as [Hin|Hin]; [absent Hin|].
  apply in_app_or in Hin. destruct Hin as [Hin|Hin]; [|absent Hin].
  now apply (spaces_notin ws1 dq H).
Qed.

Lemma alphabetic_quote_free v : alphabetic v = true -> quote_free v.
Proof. intros H. now apply alphabetic_notin. Qed.

(** Inside a declaration for another name no match starts. *)
Lemma Tdecl_other name ws1 v ws2 y :
  spaces ws1 -> spaces ws2 -> quote_free v ->
  alphabetic (lit name) = true -> v <> lit name ->
  forall t1 t2, decl ws1 v ws2 = t1 ++ t2 -> t2 <> [] ->
    Tdecl name (t2 ++ y) = None.
Proof.
  intros H1 H2 Hv Ha Hne t1 t2 Hd Ht2.
  destruct (Tdecl name (t2 ++ y)) as [[out rest]|] eqn:E; [exfalso|reflexivity].
  destruct (Tdecl_dot _ _ _ _ Ha E) as [M [HM _]].
  destruct t2 as [|c t2]; [congruence|]. simpl in HM. injection HM as -> _.
  apply decl_matcher_iff in E. destruct E as [_ [ws1' [ws2' [H1' [H2' E]]]]].
  pose proof Hd as Hd'. rewrite decl_dot in Hd'.
  destruct (positions _ _ _ _ _ _ Hd' (decl_before_free ws1 H1) (decl_after_free ws2 H2))
    as [->|[v1 [v2 [-> [-> ->]]]]]; clear Hd'.
  - change ([] ++ dot :: t2) with (dot :: t2) in Hd. rewrite <- Hd in E.
    apply Hne. eapply decl_same_name; [exact H1|exact H1'|exact Hv| |exact E].
    now apply alphabetic_quote_free.
  - rewrite decl_quote, <- app_comm_cons in E. apply cons_inv in E.
    rewrite <- app_assoc, <- app_comm_cons in E.
    apply first_occurrence in E.
    + destruct E as [_ E]. destruct (lit name) as [|c n] eqn:En.
      * simpl in E. discriminate E.
      * simpl in E. injection E as E _.
        assert (Hc : alpha c = true).
        { unfold alphabetic in Ha. simpl in Ha. now apply andb_prop in Ha. }
        rewrite <- E in Hc. vm_compute in Hc. discriminate.
    + intros Hin. apply Hv. apply in_or_app. right. now right.
    + now apply decl_before_quote_free.
Qed.

Lemma Tdecl_short name y :
  alphabetic (lit name) = true ->
  forall t1 t2, decl_short = t1 ++ t2 -> t2 <> [] -> Tdecl name (t2 ++ y) = None.
Proof.
  intros Ha t1 t2 Hd Ht2.
  destruct (Tdecl name (t2 ++ y)) as [[out rest]|] eqn:E; [exfalso|reflexivity].
  destruct (Tdecl_dot _ _ _ _ Ha E) as [M [HM _]].
  destruct t2 as [|c t2]; [congruence|]. simpl in HM. injection HM as -> _.
  change decl_short with (dot :: lit "package(url:") in Hd.
  apply single_head in Hd; [|intros Hin; absent Hin]. destruct Hd as [-> ->].
  apply decl_matcher_iff in E. destruct E as [_ [ws1 [ws2 [H1 [H2 E]]]]].
  rewrite decl_app in E.
  change ((dot :: lit "package(url:") ++ y) with (lit ".package(" ++ lit "url:" ++ y) in E.
  apply app_inv_head in E. destruct ws1 as [|c ws1].
  - simpl in E. discriminate E.
  - simpl in E. injection E as E _. inversion H1 as [|? ? Hc _]; subst.
    vm_compute in Hc. discriminate.
Qed.


Lemma run_Tdecl_before name a b b' :
  alphabetic (lit name) = true -> b = dot :: b' ->
  run (Tdecl name) (a ++ b) = run (Tdecl name) a ++ run (Tdecl name) b.
Proof. intros Ha ->. now apply run_Tdecl_dot. Qed.

(** The three ways a declaration step passes over a piece of text. *)
Lemma frame_other name ws1 v ws2 a b :
  spaces ws1 -> spaces ws2 -> quote_free v ->
  alphabetic (lit name) = true -> v <> lit name ->
  run (Tdecl name) (a ++ decl ws1 v ws2 ++ b) =
  run (Tdecl name) a ++ decl ws1 v ws2 ++ run (Tdecl name) b.
Proof.
  intros H1 H2 Hv Ha Hne.
  rewrite (run_Tdecl_before name a _ _ Ha (decl_quote ws1 v ws2 b)). f_equal.
  apply run_skip. now apply Tdecl_other.
Qed.

Lemma frame_short name a b :
  alphabetic (lit name) = true ->
  run (Tdecl name) (a ++ decl_short ++ b) =
  run (Tdecl name) a ++ decl_short ++ run (Tdecl name) b.
Proof.
  intros Ha.
  rewrite (run_Tdecl_before name a (decl_short ++ b) (lit "package(url:" ++ b) Ha eq_refl).
  f_equal; apply run_skip; now apply Tdecl_short.
Qed.


(* ================================================================= *)
(** ** The declaration step as a whole *)

Lemma consuming_decl name : consuming (decl_pattern name) = true.
Proof. reflexivity. Qed.

Lemma simplify_declarations_fold s :
  simplify_declarations s =
  fold_left (fun c name => run (Tdecl name) c) target_names s.
Proof.
  unfold simplify_declarations, Tdecl.
  rewrite !re_sub_run by (apply consuming_decl || apply decl_regular).
  reflexivity.
Qed.


Lemma lit_inj a b : lit a = lit b -> a = b.
Proof.
  unfold lit. intros H.
  rewrite <- (string_of_list_ascii_of_string a), <- (string_of_list_ascii_of_string b).
  f_equal. revert H. generalize (list_ascii_of_string a) (list_ascii_of_string b).
  induction l as [|x l IH]; intros [|y l'] H; try discriminate; [reflexivity|].
  simpl in H. injection H as Hx Hl. f_equal; [|now apply IH].
  rewrite <- (ascii_N_embedding x), <- (ascii_N_embedding y). now rewrite Hx.
Qed.

Lemma target_names_alphabetic name :
  In name target_names -> alphabetic (lit name) = true.
Proof.
  intros H. repeat (destruct H as [<-|H]; [reflexivity|]). destruct H.
Qed.




(* ================================================================= *)
(** ** The pin step *)

Lemma revision_regular : regular Trev.
Proof.
  intros s out rest H. apply revision_matcher_iff in H.
  destruct H as [v [Hne [Hq [-> ->]]]].
  exists (pin_call v). split; [discriminate|]. split; [reflexivity|].
  intros rest'. apply revision_matcher_iff. now exists v.
Qed.

Lemma normalize_revision_run s : normalize_revision s = run Trev s.
Proof.
  unfold normalize_revision, Trev. apply re_sub_run; [reflexivity|].
  apply revision_regular.
Qed.





(* ================================================================= *)
(** ** Renaming references: the structure between quotes *)

Lemma text_eqb_eq a b : text_eqb a b = true <-> a = b.
Proof.
  unfold text_eqb. destruct (list_eq_dec N.eq_dec a b); split; congruence.
Qed.

Lemma text_eqb_refl a : text_eqb a a = true.
Proof. now apply text_eqb_eq. Qed.

Lemma text_eqb_neq a b : text_eqb a b = false <-> a <> b.
Proof.
  unfold text_eqb. destruct (list_eq_dec N.eq_dec a b); split; congruence.
Qed.

Lemma split_quote_Some s u Y :
  split_quote s = Some (u, Y) -> s = u ++ dq :: Y /\ quote_free u.
Proof.
  revert u. induction s as [|c s IH]; intros u H; simpl in H; [discriminate|].
  destruct (N.eqb_spec c dq) as [->|Hc].
  - injection H as <- <-. split; [reflexivity|intros []].
  - destruct (split_quote s) as [[u' Y']|]; [|discriminate].
    injection H as <- <-. destruct (IH u' eq_refl) as [-> Hq].
    split; [reflexivity|]. intros [E|E]; [congruence|contradiction].
Qed.

Lemma split_quote_None s : split_quote s = None -> quote_free s.
Proof.
  induction s as [|c s IH]; intros H; simpl in H; [intros []|].
  destruct (N.eqb_spec c dq) as [->|Hc]; [discriminate|].
  destruct (split_quote s) as [[u' Y']|]; [discriminate|].
  intros [E|E]; [congruence|now apply IH].
Qed.

Lemma split_quote_app u Y :
  quote_free u -> split_quote (u ++ dq :: Y) = Some (u, Y).
Proof.
  induction u as [|c u IH]; intros H; simpl.
  - reflexivity.
  - destruct (N.eqb_spec c dq) as [->|Hc]; [exfalso; apply H; now left|].
    rewrite IH; [reflexivity|]. intros E. apply H. now right.
Qed.

Lemma split_quote_free s : quote_free s -> split_quote s = None.
Proof.
  intros H. destruct (split_quote s) as [[u Y]|] eqn:E; [|reflexivity].
  apply split_quote_Some in E. destruct E as [-> _].
  exfalso. apply H. apply in_or_app. right. now left.
Qed.

Lemma quote_free_app a b : quote_free (a ++ b) <-> quote_free a /\ quote_free b.
Proof.
  unfold quote_free. split.
  - intros H. split; intros E; apply H; apply in_or_app; tauto.
  - intros [Ha Hb] E. apply in_app_or in E. tauto.
Qed.

Lemma pkg_quote_free : quote_free pkg.
Proof. intros H. absent H. Qed.

Lemma ends_with_iff p u : ends_with p u = true <-> exists u1, u = u1 ++ p.
Proof.
  induction u as [|c u IH]; simpl.
  - rewrite orb_false_r, text_eqb_eq. split.
    + intros <-. now exists [].
    + intros [u1 H]. symmetry in H. apply app_eq_nil in H. now destruct H.
  - rewrite orb_true_iff, text_eqb_eq, IH. split.
    + intros [<-|[u1 ->]]; [now exists []|now exists (c :: u1)].
    + intros [[|d u1] H]; [left; now rewrite H|right].
      simpl in H. injection H as -> ->. now exists u1.
Qed.

Lemma ends_with_app p u : ends_with p (u ++ p) = true.
Proof. apply ends_with_iff. now exists u. Qed.

Lemma ends_with_refl p : ends_with p p = true.
Proof. apply (ends_with_app p []). Qed.

Lemma strip_prefix_common p a b :
  strip_prefix (p ++ a) (p ++ b) = strip_prefix a b.
Proof.
  induction p as [|c p IH]; simpl; [reflexivity|]. now rewrite N.eqb_refl.
Qed.

Lemma reference_app v Z : reference v ++ Z = pkg ++ dq :: v ++ dq :: Z.
Proof.
  unfold reference, pkg. rewrite <- app_assoc, <- app_comm_cons.
  now rewrite <- app_assoc.
Qed.

(** The closing quote of a quote-free value is the first quote. *)
Lemma strip_value o Y :
  quote_free o ->
  strip_prefix (o ++ [dq]) Y =
  match split_quote Y with
  | Some (x, y) => if text_eqb o x then Some y else None
  | None => None
  end.
Proof.
  intros Ho. destruct (strip_prefix (o ++ [dq]) Y) as [r|] eqn:E.
  - apply strip_prefix_Some in E. rewrite <- app_assoc in E. simpl in E. subst Y.
    rewrite split_quote_app by assumption. now rewrite text_eqb_refl.
  - destruct (split_quote Y) as [[x y]|] eqn:ES; [|reflexivity].
    apply split_quote_Some in ES. destruct ES as [-> Hx].
    destruct (text_eqb o x) eqn:Eo; [|reflexivity].
    apply text_eqb_eq in Eo. subst x.
    exfalso. apply (strip_prefix_None _ _ E y). now rewrite <- app_assoc.
Qed.

Section Multi.

Variable tbl : list (text * text).
Hypothesis olds_quote_free : Forall quote_free (map fst tbl).

Lemma multi_In s out rest :
  multi tbl s = Some (out, rest) ->
  exists o n, In (o, n) tbl /\ s = reference o ++ rest /\ out = reference n.
Proof.
  clear olds_quote_free.
  induction tbl as [|[o n] t IH]; cbn [multi]; [discriminate|].
  destruct (strip_prefix (reference o) s) as [r|] eqn:E.
  - intros H. injection H as <- <-. apply strip_prefix_Some in E.
    exists o, n. split; [now left|now split].
  - intros H. destruct (IH H) as [o' [n' [Hin Hs]]].
    exists o', n'. split; [now right|assumption].
Qed.

(** What the table matcher does right after [package: ] and a quote. *)
Lemma multi_value Y :
  multi tbl (pkg ++ dq :: Y) =
  match split_quote Y with
  | Some (x, y) =>
      match assoc tbl x with
      | Some x' => Some (reference x', y)
      | None => None
      end
  | None => None
  end.
Proof.
  induction tbl as [|[o n] t IH]; cbn [multi assoc].
  - destruct (split_quote Y) as [[x y]|]; reflexivity.
  - cbn [map fst] in olds_quote_free.
    inversion olds_quote_free as [|? ? Ho Ht]; subst.
    rewrite (IH Ht). unfold reference at 1. fold pkg.
    change (dq :: o ++ [dq]) with ([dq] ++ o ++ [dq]).
    change (dq :: Y) with ([dq] ++ Y).
    rewrite !strip_prefix_common, (strip_value o Y Ho).
    destruct (split_quote Y) as [[x y]|]; [|reflexivity].
    destruct (text_eqb o x); reflexivity.
Qed.

Lemma multi_shape s out rest :
  multi tbl s = Some (out, rest) ->
  exists o n, assoc tbl o = Some n /\ quote_free o /\
              s = pkg ++ dq :: o ++ dq :: rest /\ out = reference n.
Proof.
  intros H. destruct (multi_In _ _ _ H) as [o [n [Hin [-> _]]]].
  assert (Ho : quote_free o).
  { rewrite Forall_forall in olds_quote_free. apply olds_quote_free.
    now apply (in_map fst) in Hin. }
  rewrite reference_app, multi_value, split_quote_app in H by assumption.
  destruct (assoc tbl o) as [n'|] eqn:Ea; [|discriminate].
  exists o, n'. rewrite reference_app.
  split; [assumption|]. split; [assumption|]. split; [reflexivity|congruence].
Qed.

Lemma multi_hit o n rest :
  assoc tbl o = Some n -> quote_free o ->
  multi tbl (reference o ++ rest) = Some (reference n, rest).
Proof.
  intros Ha Ho. rewrite reference_app, multi_value, split_quote_app by assumption.
  now rewrite Ha.
Qed.

Lemma multi_regular : regular (multi tbl).
Proof.
  intros s out rest H. destruct (multi_shape _ _ _ H) as [o [n [Ha [Ho [-> ->]]]]].
  exists (reference o). split; [discriminate|]. split; [now rewrite reference_app|].
  intros rest'. now apply multi_hit.
Qed.

Lemma run_multi_quote_free s : quote_free s -> run (multi tbl) s = s.
Proof.
  intros Hs. apply run_clean. intros t1 t2 -> .
  destruct (multi tbl t2) as [[out rest]|] eqn:E; [exfalso|reflexivity].
  destruct (multi_shape _ _ _ E) as [o [n [_ [_ [-> _]]]]].
  apply Hs. apply in_or_app. right. apply in_or_app. right. now left.
Qed.

Lemma seg_cons F c u Y :
  multi tbl ((c :: u) ++ dq :: Y) = None ->
  seg tbl F (c :: u) Y = seg tbl F u Y.
Proof.
  intros H. unfold seg. simpl. destruct (text_eqb (c :: u) pkg) eqn:E.
  - apply text_eqb_eq in E. rewrite E in *. simpl.
    rewrite multi_value in H.
    replace (ends_with pkg u) with false.
    + unfold step. destruct (split_quote Y) as [[x y]|]; [|reflexivity].
      destruct (assoc tbl x); [discriminate|reflexivity].
    + injection E as _ ->. reflexivity.
  - reflexivity.
Qed.

(** The single scan renames like the table. *)
Lemma run_multi_quote F u Y :
  F = run (multi tbl) -> quote_free u ->
  F (u ++ dq :: Y) = u ++ dq :: seg tbl F u Y.
Proof.
  intros -> . induction u as [|c u IH]; intros Hu.
  - simpl. rewrite run_copy; [reflexivity|].
    destruct (multi tbl (dq :: Y)) as [[out rest]|] eqn:E; [|reflexivity].
    destruct (multi_shape _ _ _ E) as [o [n [_ [_ [H _]]]]]. discriminate H.
  - destruct (multi tbl ((c :: u) ++ dq :: Y)) as [[out rest]|] eqn:E.
    + rewrite (run_match _ multi_regular E).
      destruct (multi_shape _ _ _ E) as [o [n [Ha [Ho [H ->]]]]].
      apply first_occurrence in H; [|assumption|apply pkg_quote_free].
      destruct H as [-> ->]. unfold seg. rewrite ends_with_refl.
      unfold step. rewrite split_quote_app, Ha by assumption.
      rewrite reference_app. reflexivity.
    + rewrite seg_cons by assumption. simpl in E |- *.
      rewrite run_copy by assumption. f_equal. apply IH.
      intros Hin. apply Hu. now right.
Qed.

Lemma run_multi_renames_like : renames_like tbl (run (multi tbl)).
Proof.
  split; [apply run_multi_quote_free|]. intros u Y. now apply run_multi_quote.
Qed.

End Multi.

(* ================================================================= *)
(** ** Functions that rename like a table *)

Lemma split_quote_shorter Y x y :
  split_quote Y = Some (x, y) -> length y < length Y.
Proof.
  intros H. apply split_quote_Some in H. destruct H as [-> _].
  rewrite length_app. simpl. lia.
Qed.

Lemma step_ext tbl F G Y :
  (forall t, length t <= length Y -> F t = G t) ->
  step tbl F Y = step tbl G Y.
Proof.
  intros H. unfold step. destruct (split_quote Y) as [[x y]|] eqn:E.
  - apply split_quote_shorter in E. destruct (assoc tbl x).
    + now rewrite H by lia.
    + now apply H.
  - now apply H.
Qed.

Lemma seg_ext tbl F G u Y :
  (forall t, length t <= length Y -> F t = G t) ->
  seg tbl F u Y = seg tbl G u Y.
Proof.
  intros H. unfold seg. destruct (ends_with pkg u).
  - now apply step_ext.
  - now apply H.
Qed.

(** Cutting a text at its first quote. *)
Lemma quote_cases s :
  quote_free s \/ exists u Y, s = u ++ dq :: Y /\ quote_free u /\ length Y < length s.
Proof.
  destruct (split_quote s) as [[u Y]|] eqn:E.
  - right. exists u, Y. pose proof (split_quote_shorter _ _ _ E).
    apply split_quote_Some in E. tauto.
  - left. now apply split_quote_None.
Qed.

(** Two functions that rename like the same table are the same function. *)
Lemma renames_like_unique tbl F G :
  renames_like tbl F -> renames_like tbl G -> forall s, F s = G s.
Proof.
  intros [F0 F1] [G0 G1] s.
  remember (length s) as k eqn:Ek. revert s Ek.
  induction k as [k IH] using lt_wf_ind. intros s ->.
  destruct (quote_cases s) as [Hs|[u [Y [-> [Hu Hlen]]]]].
  - now rewrite F0, G0.
  - rewrite F1, G1 by assumption. do 2 f_equal. apply seg_ext.
    intros t Ht. apply (IH (length t)); [lia|reflexivity].
Qed.

Lemma assoc_Some_In tbl x n : assoc tbl x = Some n -> In (x, n) tbl.
Proof.
  induction tbl as [|[o m] t IH]; simpl; [discriminate|].
  destruct (text_eqb o x) eqn:E.
  - apply text_eqb_eq in E. intros H. injection H as ->. subst. now left.
  - intros H. right. now apply IH.
Qed.

Lemma assoc_None tbl x : ~ In x (map fst tbl) -> assoc tbl x = None.
Proof.
  induction tbl as [|[o m] t IH]; simpl; [reflexivity|]. intros H.
  destruct (text_eqb o x) eqn:E.
  - apply text_eqb_eq in E. tauto.
  - apply IH. tauto.
Qed.

Lemma assoc_In tbl x n :
  NoDup (map fst tbl) -> In (x, n) tbl -> assoc tbl x = Some n.
Proof.
  induction tbl as [|[o m] t IH]; simpl; [tauto|]. intros Hnd [H|H].
  - injection H as -> ->. now rewrite text_eqb_refl.
  - inversion Hnd as [|? ? Hn Ht]; subst.
    destruct (text_eqb o x) eqn:E.
    + apply text_eqb_eq in E. subst. exfalso. apply Hn.
      now apply (in_map fst) in H.
    + now apply IH.
Qed.

Lemma assoc_perm t1 t2 x :
  NoDup (map fst t1) -> Permutation t1 t2 -> assoc t1 x = assoc t2 x.
Proof.
  intros Hnd Hp.
  assert (Hnd2 : NoDup (map fst t2)).
  { eapply Permutation_NoDup; [apply Permutation_map, Hp|assumption]. }
  destruct (assoc t1 x) as [n|] eqn:E1.
  - symmetry. apply assoc_In; [assumption|].
    eapply Permutation_in; [exact Hp|]. now apply assoc_Some_In.
  - destruct (assoc t2 x) as [n|] eqn:E2; [|reflexivity].
    apply assoc_Some_In in E2. apply Permutation_sym in Hp.
    apply (Permutation_in _ Hp) in E2. apply (assoc_In _ _ _ Hnd) in E2.
    congruence.
Qed.

Lemma renames_like_perm t1 t2 F :
  NoDup (map fst t1) -> Permutation t1 t2 ->
  renames_like t1 F -> renames_like t2 F.
Proof.
  intros Hnd Hp [F0 F1]. split; [assumption|]. intros u Y Hu.
  rewrite F1 by assumption. do 2 f_equal. unfold seg, step.
  destruct (ends_with pkg u); [|reflexivity].
  destruct (split_quote Y) as [[x y]|]; [|reflexivity].
  now rewrite (assoc_perm t1 t2 x Hnd Hp).
Qed.

Lemma table_ok_perm t1 t2 : Permutation t1 t2 -> table_ok t1 -> table_ok t2.
Proof.
  intros Hp [Hnd [Ho [Hn Hd]]].
  pose proof (Permutation_map fst Hp) as Hpf.
  pose proof (Permutation_map snd Hp) as Hps.
  split; [eapply Permutation_NoDup; eassumption|].
  split; [eapply Permutation_Forall; eassumption|].
  split; [eapply Permutation_Forall; eassumption|].
  intros n Hin Hin'. apply (Hd n).
  - eapply Permutation_in; [apply Permutation_sym; exact Hps|assumption].
  - eapply Permutation_in; [apply Permutation_sym; exact Hpf|assumption].
Qed.

Lemma table_ok_tail r tbl : table_ok (r :: tbl) -> table_ok tbl.
Proof.
  intros [Hnd [Ho [Hn Hd]]]. simpl in *.
  inversion Hnd; inversion Ho; inversion Hn; subst.
  repeat split; try assumption.
  intros n Hin Hin'. apply (Hd n); now right.
Qed.

(** One rename followed by the renames of a table that does not know its
    values renames like the table with the one rename in front. *)
Lemma renames_like_compose o n tbl F1 F2 :
  renames_like [(o, n)] F1 -> renames_like tbl F2 ->
  plain n -> assoc tbl n = None -> Forall plain (map fst tbl) ->
  renames_like ((o, n) :: tbl) (fun s => F2 (F1 s)).
Proof.
  intros [A0 A1] [B0 B1] [Hn Hne] Hnew Hplain. split.
  - intros s Hs. now rewrite A0, B0.
  - intros u Y Hu. rewrite A1, B1 by assumption. do 2 f_equal.
    unfold seg. destruct (ends_with pkg u); [|reflexivity].
    unfold step at 2 3. destruct (split_quote Y) as [[x y]|] eqn:E.
    + apply split_quote_Some in E. destruct E as [-> Hx]. cbn [assoc].
      destruct (text_eqb o x) eqn:Eo.
      * unfold step. rewrite split_quote_app, Hnew, B1 by assumption.
        unfold seg. now rewrite Hne.
      * rewrite A1 by assumption. unfold step.
        rewrite split_quote_app by assumption.
        destruct (assoc tbl x) as [x'|] eqn:Ea; [|reflexivity].
        unfold seg. replace (ends_with pkg x) with false; [reflexivity|].
        apply assoc_Some_In in Ea. apply (in_map fst) in Ea.
        rewrite Forall_forall in Hplain. symmetry. now apply (Hplain x Ea).
    + apply split_quote_None in E. rewrite A0 by assumption.
      unfold step. now rewrite split_quote_free.
Qed.

Lemma str_replace_multi o n s :
  str_replace (reference o) (reference n) s = run (multi [(o, n)]) s.
Proof. reflexivity. Qed.

Lemma rename_in_order_like tbl :
  table_ok tbl -> renames_like tbl (rename_in_order tbl).
Proof.
  induction tbl as [|[o n] tbl IH]; intros Hok.
  - split; [reflexivity|]. intros u Y _. unfold rename_in_order. simpl.
    unfold seg, step. destruct (ends_with pkg u); [|reflexivity].
    now destruct (split_quote Y) as [[x y]|].
  - pose proof (table_ok_tail _ _ Hok) as Hok'.
    destruct Hok as [Hnd [Ho [Hn Hd]]]. simpl in Hnd, Ho, Hn, Hd.
    inversion Hnd; inversion Ho; inversion Hn; subst.
    apply (renames_like_compose o n tbl
             (fun s => str_replace (reference o) (reference n) s)
             (rename_in_order tbl)).
    + apply run_multi_renames_like. constructor; [|constructor].
      match goal with H : plain o |- _ => exact (proj1 H) end.
    + now apply IH.
    + assumption.
    + apply assoc_None. intros Hin. apply (Hd n); [now left|now right].
    + assumption.
Qed.

Lemma assoc_Some_new tbl x n : assoc tbl x = Some n -> In n (map snd tbl).
Proof.
  intros H. apply assoc_Some_In in H. now apply (in_map snd) in H.
Qed.

(** Renaming twice is renaming once. *)
Lemma renames_like_idem tbl F :
  renames_like tbl F -> table_ok tbl -> forall s, F (F s) = F s.
Proof.
  intros [F0 F1] [_ [_ [Hn Hd]]] s.
  remember (length s) as k eqn:Ek. revert s Ek.
  induction k as [k IH] using lt_wf_ind. intros s ->.
  destruct (quote_cases s) as [Hs|[u [Y [-> [Hu Hlen]]]]].
  - rewrite (F0 s Hs). now apply F0.
  - rewrite F1, F1 by assumption. do 2 f_equal.
    assert (IHY : forall t, length t <= length Y -> F (F t) = F t).
    { intros t Ht. apply (IH (length t)); [lia|reflexivity]. }
    unfold seg. destruct (ends_with pkg u); [|now apply IHY].
    unfold step at 2 3. destruct (split_quote Y) as [[x y]|] eqn:E.
    + pose proof (split_quote_shorter _ _ _ E) as Hy.
      apply split_quote_Some in E. destruct E as [-> Hx].
      destruct (assoc tbl x) as [x'|] eqn:Ea.
      * apply assoc_Some_new in Ea. rewrite Forall_forall in Hn.
        destruct (Hn x' Ea) as [Hq Hne].
        unfold step. rewrite split_quote_app by assumption.
        rewrite (assoc_None tbl x') by now apply Hd.
        rewrite F1 by assumption. unfold seg. rewrite Hne.
        now rewrite IHY by lia.
      * rewrite F1 by assumption. unfold step.
        rewrite split_quote_app, Ea by assumption.
        rewrite <- F1 by assumption. now apply IHY.
    + apply split_quote_None in E. rewrite F0 by assumption.
      unfold step. rewrite split_quote_free by assumption. now apply F0.
Qed.




(* ================================================================= *)
(** ** The rename table of the source *)

Lemma plain_check v :
  forallb not_dq v = true -> ends_with pkg v = false -> plain v.
Proof.
  intros H He. split; [|assumption].
  apply not_dq_quote_free. apply Forall_forall. now apply forallb_forall.
Qed.

Lemma rename_table_ok : table_ok rename_table.
Proof.
  split; [|split; [|split]].
  - repeat (constructor; [simpl; intuition discriminate|]). constructor.
  - repeat (constructor; [apply plain_check; reflexivity|]). constructor.
  - repeat (constructor; [apply plain_check; reflexivity|]). constructor.
  - intros n Hn Ho. simpl in Hn, Ho.
    repeat (destruct Hn as [<-|Hn];
            [repeat (destruct Ho as [Ho|Ho]; [discriminate Ho|]); destruct Ho|]).
    destruct Hn.
Qed.

Lemma rename_references_in_order s :
  rename_references s = rename_in_order rename_table s.
Proof. reflexivity. Qed.

Lemma rename_references_like : renames_like rename_table rename_references.
Proof. exact (rename_in_order_like rename_table rename_table_ok). Qed.

(* ================================================================= *)
(** ** The rewriter and the filesystem *)

Lemma fix_unchanged p f w :
  w_files w p = Some f -> rewrite (f_content f) = f_content f ->
  fix_package_swift p w = Returned false w.
Proof.
  intros Hf He. unfold fix_package_swift, bind, read_text. rewrite Hf, He.
  now rewrite text_eqb_refl.
Qed.

Lemma fix_changed p f w :
  w_files w p = Some f -> rewrite (f_content f) <> f_content f ->
  fix_package_swift p w = Returned true (rewritten p f w).
Proof.
  intros Hf He. unfold fix_package_swift, bind, read_text. rewrite Hf.
  apply text_eqb_neq in He. rewrite He. cbn [negb].
  unfold chmod. rewrite Hf. unfold write_text, with_file at 2. cbn [w_files].
  unfold set_file at 1. rewrite text_eqb_refl. reflexivity.
Qed.

Lemma rename_table_quote_free : Forall quote_free (map fst rename_table).
Proof.
  destruct rename_table_ok as [_ [Ho _]].
  eapply Forall_impl; [|exact Ho]. intros v Hv. exact (proj1 Hv).
Qed.

Lemma rename_references_simultaneous s :
  rename_references s = rename_simultaneous s.
Proof.
  apply (renames_like_unique rename_table).
  - apply rename_references_like.
  - apply run_multi_renames_like, rename_table_quote_free.
Qed.

Lemma untargeted_rewrite s : untargeted s -> rewrite s = s.
Proof.
  intros [Hd [Hr Hm]]. unfold rewrite.
  assert (E1 : simplify_declarations s = s).
  { rewrite simplify_declarations_fold.
    assert (H : forall L, (forall n, In n L -> In n target_names) ->
                fold_left (fun c n => run (Tdecl n) c) L s = s).
    { induction L as [|n L IH]; intros HL; [reflexivity|]. simpl.
      rewrite run_clean by (apply Hd, HL; now left).
      apply IH. intros n' Hn'. apply HL. now right. }
    now apply H. }
  rewrite E1, normalize_revision_run, (run_clean _ _ Hr).
  rewrite rename_references_simultaneous. now apply run_clean.
Qed.

(* ================================================================= *)
(** ** The locator *)

Section Locator.

Variable fnmatch : text -> text -> bool.


Lemma find_first_match w :
  w_exists w (str_path (derived_data w)) = true ->
  find_package_file fnmatch w = hd_error (glob fnmatch w (search_pattern w)).
Proof.
  intros H. unfold find_package_file, search_pattern. rewrite H. cbn [negb].
  now destruct (glob fnmatch w _).
Qed.

Lemma join_nonempty d n : d <> [] -> join d n <> [].
Proof.
  intros Hd. unfold join. destruct n as [|c n].
  - destruct (rev d) as [|x r] eqn:E.
    + apply (f_equal (@rev _)) in E. rewrite rev_involutive in E. simpl in E. congruence.
    + destruct (N.eqb x sep); [assumption|]. now destruct d.
  - destruct (N.eqb c sep); [discriminate|].
    destruct (rev d) as [|x r]; [discriminate|].
    destruct (N.eqb x sep); now destruct d.
Qed.

Lemma str_path_nonempty comps :
  Forall (fun c => c <> []) comps -> str_path comps <> [].
Proof.
  destruct comps as [|c comps]; simpl; discriminate.
Qed.

Lemma glob_from_nonempty w comps : forall dirs,
  Forall (fun d => d <> []) dirs ->
  Forall (fun d => d <> []) (glob_from fnmatch w dirs comps).
Proof.
  induction comps as [|c cs IH]; intros dirs H; [assumption|].
  simpl. apply IH. apply Forall_forall. intros p Hp.
  apply in_flat_map in Hp. destruct Hp as [d [Hd Hp]].
  apply in_map_iff in Hp. destruct Hp as [n [<- _]].
  apply join_nonempty. rewrite Forall_forall in H. now apply H.
Qed.

Lemma glob_nonempty w comps p : In p (glob fnmatch w comps) -> p <> [].
Proof.
  unfold glob. destruct (literal_prefix comps) as [pre rest].
  assert (Hpre : str_path pre <> []) by (destruct pre; discriminate).
  destruct rest as [|c rest].
  - destruct (w_lexists w (str_path pre)); [|intros []].
    intros [<-|[]]. assumption.
  - intros Hin.
    assert (H : Forall (fun d => d <> []) (glob_from fnmatch w [str_path pre] (c :: rest))).
    { apply glob_from_nonempty. now constructor. }
    rewrite Forall_forall in H. now apply H.
Qed.

Lemma find_nonempty w p : find_package_file fnmatch w = Some p -> p <> [].
Proof.
  unfold find_package_file.
  destruct (negb (w_exists w (str_path (derived_data w)))); [discriminate|].
  destruct (glob fnmatch w _) as [|q l] eqn:E; [discriminate|].
  intros H. injection H as <-.
  apply (glob_nonempty w (derived_data w ++ lit "*" :: search_suffix) q).
  rewrite E. now left.
Qed.

(* ================================================================= *)
(** ** The entry point *)

Lemma main_not_found w :
  find_package_file fnmatch w = None ->
  main fnmatch w = Returned tt (printed [msg_not_found; msg_resolve_first] w).
Proof.
  intros H. unfold main, bind, query. rewrite H. unfold print, printed.
  cbn [w_home w_umask w_files w_exists w_lexists w_scandir w_journal w_stdout].
  now rewrite <- app_assoc.
Qed.

Lemma main_found w p f :
  find_package_file fnmatch w = Some p -> w_files w p = Some f ->
  main fnmatch w =
  if text_eqb (rewrite (f_content f)) (f_content f)
  then Returned tt (printed [msg_found p; msg_already] w)
  else Returned tt (printed [msg_found p; msg_fixed] (rewritten p f w)).
Proof.
  intros H Hf. pose proof (find_nonempty w p H) as Hne.
  destruct p as [|c p]; [congruence|].
  unfold main, bind, query. rewrite H. unfold print at 1.
  change {| w_home := w_home w; w_umask := w_umask w; w_files := w_files w;
            w_exists := w_exists w; w_lexists := w_lexists w;
            w_scandir := w_scandir w; w_journal := w_journal w;
            w_stdout := w_stdout w ++ [msg_found (c :: p)] |}
    with (printed [msg_found (c :: p)] w).
  destruct (text_eqb (rewrite (f_content f)) (f_content f)) eqn:E.
  - apply text_eqb_eq in E.
    rewrite (fix_unchanged (c :: p) f (printed [msg_found (c :: p)] w) Hf E).
    unfold print, printed.
    cbn [w_home w_umask w_files w_exists w_lexists w_scandir w_journal w_stdout].
    now rewrite <- app_assoc.
  - apply text_eqb_neq in E.
    rewrite (fix_changed (c :: p) f (printed [msg_found (c :: p)] w) Hf E).
    unfold print, printed, rewritten, with_file.
    cbn [w_home w_umask w_files w_exists w_lexists w_scandir w_journal w_stdout].
    now rewrite <- (app_assoc (w_stdout w)).
Qed.

End Locator.

Section LocatorPaths.

Variable fnmatch : text -> text -> bool.

Lemma glob_from_literal w cs :
  Forall (fun c => has_magic c = false) cs ->
  forall dirs p, In p (glob_from fnmatch w dirs cs) ->
    exists d, In d dirs /\ p = fold_left join cs d.
Proof.
  induction 1 as [|c cs Hc _ IH]; intros dirs p Hp.
  - now exists p.
  - simpl in Hp. destruct (IH _ _ Hp) as [d' [Hd' ->]].
    apply in_flat_map in Hd'. destruct Hd' as [d [Hd Hn]].
    apply in_map_iff in Hn. destruct Hn as [n [<- Hn]].
    unfold glob_in_dir, glob0 in Hn. rewrite Hc in Hn.
    destruct (w_lexists w (join d c)); [|destruct Hn].
    destruct Hn as [<-|[]]. now exists d.
Qed.

Lemma literal_prefix_app pre c rest :
  Forall (fun x => has_magic x = false) pre -> has_magic c = true ->
  literal_prefix (pre ++ c :: rest) = (pre, c :: rest).
Proof.
  intros Hpre Hc. induction Hpre as [|x pre Hx _ IH]; simpl.
  - now rewrite Hc.
  - now rewrite Hx, IH.
Qed.

(** With a home directory whose name has no wildcard character, what the
    locator finds is a build directory of DerivedData followed by the
    fixed components. *)
Lemma find_under_base w p :
  Forall (fun c => has_magic c = false) (w_home w) ->
  find_package_file fnmatch w = Some p ->
  exists d, In (d, true) (w_scandir w (str_path (derived_data w))) /\
            p = fold_left join (d :: search_suffix) (str_path (derived_data w)).
Proof.
  intros Hhome H. unfold find_package_file in H.
  destruct (negb (w_exists w (str_path (derived_data w)))); [discriminate|].
  destruct (glob fnmatch w _) as [|q l] eqn:E; [discriminate|].
  injection H as <-.
  assert (Hin : In q (glob fnmatch w (derived_data w ++ lit "*" :: search_suffix)))
    by (rewrite E; now left).
  clear E. unfold glob in Hin. rewrite literal_prefix_app in Hin.
  - cbn [glob_from] in Hin. change search_suffix with (lit "SourcePackages" :: tl search_suffix) in Hin.
    apply glob_from_literal in Hin; [|repeat constructor].
    destruct Hin as [d' [Hd' ->]].
    cbn [flat_map] in Hd'. rewrite app_nil_r in Hd'.
    apply in_map_iff in Hd'. destruct Hd' as [n [<- Hn]].
    exists n. split; [|reflexivity].
    unfold glob_in_dir in Hn. change (has_magic (lit "*")) with true in Hn.
    unfold glob1 in Hn. change (ishidden (lit "*")) with false in Hn. cbv iota in Hn.
    apply filter_In in Hn. destruct Hn as [Hn _].
    apply filter_In in Hn. destruct Hn as [Hn _].
    unfold listdir in Hn. apply in_map_iff in Hn. destruct Hn as [[n' b] [<- Hn]].
    apply filter_In in Hn. destruct Hn as [Hn Hb]. simpl in Hb. now subst b.
  - unfold derived_data. apply Forall_app. split; [assumption|repeat constructor].
  - reflexivity.
Qed.

End LocatorPaths.

Lemma printed_printed l1 l2 w : printed l2 (printed l1 w) = printed (l1 ++ l2) w.
Proof. unfold printed. simpl. now rewrite <- app_assoc. Qed.

Lemma rewritten_printed p f l w :
  rewritten p f (printed l w) = printed l (rewritten p f w).
Proof. reflexivity. Qed.

(* ================================================================= *)
(** ** Step 1: declarations *)




(* ================================================================= *)
(** ** Step 2: pins *)





(* ================================================================= *)
(** ** Step 3: references *)

Lemma rename_table_plain : Forall plain (map fst rename_table).
Proof. exact (proj1 (proj2 rename_table_ok)). Qed.



(** C9.  The five renames do not interfere: applied in any order, or all at
    once in a single scan, they give the buffer that the order of the
    source gives.  No search literal is changed by another rename, and no
    replacement is changed by any rename. *)
Theorem renames_order_independent (order : list (text * text)) (s : text) :
  Permutation order rename_table ->
  rename_in_order order s = rename_references s /\
  rename_simultaneous s = rename_references s /\
  (forall o n o' n', In (o, n) rename_table -> In (o', n') rename_table ->
     rename_in_order [(o, n)] (reference n') = reference n' /\
     (o <> o' -> rename_in_order [(o, n)] (reference o') = reference o')).
Proof.
  intros Hp. split; [|split].
  - apply (renames_like_unique rename_table); [|apply rename_references_like].
    apply Permutation_sym in Hp.
    apply (renames_like_perm order rename_table).
    + eapply Permutation_NoDup; [apply Permutation_map, Hp|].
      exact (proj1 rename_table_ok).
    + now apply Permutation_sym.
    + apply rename_in_order_like. apply (table_ok_perm rename_table); [assumption|].
      apply rename_table_ok.
  - symmetry. apply rename_references_simultaneous.
  - intros o n o' n' H H'. simpl in H, H'.
    repeat (destruct H as [H|H]; [injection H as <- <-|]); try destruct H;
    repeat (destruct H' as [H'|H']; [injection H' as <- <-|]); try destruct H';
    (split; [vm_compute; reflexivity|]);
    intros Hne; try (exfalso; apply Hne; reflexivity); vm_compute; reflexivity.
Qed.

Lemma renames_order_independent_witness :
  Permutation (rev rename_table) rename_table /\
  rename_in_order (rev rename_table)
    (ref "GTMAppAuth" ++ ref "AppAuth" ++ ref "GoogleUtilities") =
  rename_references
    (ref "GTMAppAuth" ++ ref "AppAuth" ++ ref "GoogleUtilities").
Proof.
  assert (H : Permutation (rev rename_table) rename_table)
    by (apply Permutation_sym, Permutation_rev).
  split; [exact H|].
  exact (proj1 (renames_order_independent (rev rename_table) _ H)).
Defined.

(* ================================================================= *)
(** ** The whole transform and its effects *)

Lemma rename_references_idem s :
  rename_references (rename_references s) = rename_references s.
Proof.
  apply (renames_like_idem rename_table);
    [apply rename_references_like|apply rename_table_ok].
Qed.

(** C4 as stated fails.  The pin step drops the closing parenthesis of a
    pin, which can bring a quote and a parenthesis together that form a new
    pin: the buffer [.revision(], quote, [.revision(], quote, [)x], quote,
    [)] is rewritten differently by a second run, which reports a
    change. *)
Lemma rewrite_twice_counterexample :
  let s := lit ".revision(" ++ dq :: lit ".revision(" ++ dq :: lit ")x"
             ++ dq :: lit ")" in
  rewrite (rewrite s) <> rewrite s /\
  exists w, fix_package_swift manifest_path (world_plain (rewrite s))
            = Returned true w.
Proof.
  intros s. split.
  - vm_compute. discriminate.
  - eexists. apply (fix_changed manifest_path
                      {| f_content := rewrite s; f_mode := 292 |}).
    + vm_compute. reflexivity.
    + vm_compute. discriminate.
Qed.

(** C5.  When the transform leaves the buffer as it is, and in particular
    when none of the targeted patterns starts anywhere in it, the rewriter
    returns false and the world is the one it started in: no write, no
    permission change, nothing journalled. *)
Theorem unchanged_no_write (w : world) (p : path) (f : file) :
  w_files w p = Some f ->
  (rewrite (f_content f) = f_content f ->
   fix_package_swift p w = Returned false w) /\
  (untargeted (f_content f) ->
   rewrite (f_content f) = f_content f /\
   fix_package_swift p w = Returned false w).
Proof.
  intros Hf. split.
  - intros He. now apply (fix_unchanged p f).
  - intros Hu. pose proof (untargeted_rewrite _ Hu) as He.
    split; [exact He|]. now apply (fix_unchanged p f).
Qed.

Lemma unchanged_no_write_witness :
  w_files (world_plain (lit "let x = 1")) manifest_path
  = Some {| f_content := lit "let x = 1"; f_mode := 292 |} /\
  rewrite (lit "let x = 1") = lit "let x = 1" /\
  fix_package_swift manifest_path (world_plain (lit "let x = 1"))
  = Returned false (world_plain (lit "let x = 1")).
Proof.
  assert (H1 : w_files (world_plain (lit "let x = 1")) manifest_path
               = Some {| f_content := lit "let x = 1"; f_mode := 292 |})
    by (vm_compute; reflexivity).
  assert (H2 : rewrite (lit "let x = 1") = lit "let x = 1")
    by (vm_compute; reflexivity).
  split; [exact H1|]. split; [exact H2|].
  exact (proj1 (unchanged_no_write _ _ _ H1) H2).
Defined.

(** C6.  When the transform changes the buffer, the rewriter first sets the
    permission bits of the file to 0o644, then writes the transformed
    buffer over the whole file, and returns true.  Nothing else is
    touched. *)
Theorem changed_chmod_then_write (w : world) (p : path) (f : file) :
  w_files w p = Some f -> rewrite (f_content f) <> f_content f ->
  exists w',
    fix_package_swift p w = Returned true w' /\
    w_journal w' =
      w_journal w ++ [EvChmod p 420; EvWrite p (rewrite (f_content f))] /\
    w_files w' p =
      Some {| f_content := rewrite (f_content f); f_mode := 420 |} /\
    (forall q, q <> p -> w_files w' q = w_files w q) /\
    w_stdout w' = w_stdout w.
Proof.
  intros Hf He. exists (rewritten p f w).
  split; [now apply (fix_changed p f)|].
  unfold rewritten, with_file.
  cbn [w_home w_umask w_files w_exists w_lexists w_scandir w_journal w_stdout].
  split; [now rewrite <- app_assoc|].
  split; [unfold set_file; now rewrite text_eqb_refl|].
  split; [|reflexivity].
  intros q Hq. unfold set_file. apply text_eqb_neq in Hq. now rewrite Hq.
Qed.

Lemma changed_chmod_then_write_witness :
  w_files (world_plain (pin_call (lit "1.2.3"))) manifest_path
  = Some {| f_content := pin_call (lit "1.2.3"); f_mode := 292 |} /\
  rewrite (pin_call (lit "1.2.3")) <> pin_call (lit "1.2.3") /\
  exists w',
    fix_package_swift manifest_path (world_plain (pin_call (lit "1.2.3")))
    = Returned true w' /\
    w_journal w' =
      [EvChmod manifest_path 420;
       EvWrite manifest_path (rewrite (pin_call (lit "1.2.3")))].
Proof.
  assert (H1 : w_files (world_plain (pin_call (lit "1.2.3"))) manifest_path
               = Some {| f_content := pin_call (lit "1.2.3"); f_mode := 292 |})
    by (vm_compute; reflexivity).
  assert (H2 : rewrite (pin_call (lit "1.2.3")) <> pin_call (lit "1.2.3"))
    by (vm_compute; discriminate).
  split; [exact H1|]. split; [exact H2|].
  destruct (changed_chmod_then_write _ _ _ H1 H2) as [w' [Hr [Hj _]]].
  exists w'. split; [exact Hr|exact Hj].
Defined.

(* ================================================================= *)
(** ** The locator and the entry point *)



(** C8.  The entry point returns normally, with exit status 0, whatever the
    outcome.  When the locator finds nothing it prints the two fixed lines
    and changes nothing else.  When a file is found and can be read it
    prints the path and then the line for a changed file or the line for a
    file that needed no change, as the rewriter returns true or false. *)
Theorem main_reports (fnmatch : text -> text -> bool) (w : world) :
  (find_package_file fnmatch w = None ->
   main fnmatch w = Returned tt (printed [msg_not_found; msg_resolve_first] w)) /\
  (forall p f,
     find_package_file fnmatch w = Some p -> w_files w p = Some f ->
     exists changed w1,
       fix_package_swift p (printed [msg_found p] w) = Returned changed w1 /\
       main fnmatch w =
       Returned tt (printed [if changed then msg_fixed else msg_already] w1)) /\
  (forall a w', main fnmatch w = Returned a w' ->
     exit_status (main fnmatch w) = 0%N).
Proof.
  split; [apply main_not_found|]. split.
  - intros p f H Hf. rewrite (main_found fnmatch w p f H Hf).
    destruct (text_eqb (rewrite (f_content f)) (f_content f)) eqn:E.
    + exists false, (printed [msg_found p] w). split.
      * apply text_eqb_eq in E. now apply (fix_unchanged p f).
      * now rewrite printed_printed.
    + exists true, (rewritten p f (printed [msg_found p] w)). split.
      * apply text_eqb_neq in E. now apply (fix_changed p f).
      * now rewrite rewritten_printed, printed_printed.
  - intros a w' H. now rewrite H.
Qed.

Lemma main_reports_witness :
  find_package_file fnmatch_wild (world_plain sample_manifest)
  = Some manifest_path /\
  w_files (world_plain sample_manifest) manifest_path
  = Some {| f_content := sample_manifest; f_mode := 292 |} /\
  exists changed w1,
    fix_package_swift manifest_path
      (printed [msg_found manifest_path] (world_plain sample_manifest))
    = Returned changed w1 /\
    main fnmatch_wild (world_plain sample_manifest) =
    Returned tt (printed [if changed then msg_fixed else msg_already] w1).
Proof.
  assert (H1 : find_package_file fnmatch_wild (world_plain sample_manifest)
               = Some manifest_path) by (vm_compute; reflexivity).
  assert (H2 : w_files (world_plain sample_manifest) manifest_path
               = Some {| f_content := sample_manifest; f_mode := 292 |})
    by (vm_compute; reflexivity).
  split; [exact H1|]. split; [exact H2|].
  exact (proj1 (proj2 (main_reports fnmatch_wild (world_plain sample_manifest)))
           _ _ H1 H2).
Defined.

(** C10 fails on the code for a home directory whose name has a wildcard
    character: the home path is part of the pattern that [glob] expands.
    With the home directory [/Users/a?c] and a sibling [/Users/abc] listed
    first, the locator returns a manifest below [/Users/abc], which is not
    below the DerivedData directory of the caller. *)
Theorem locator_expands_home :
  str_path (derived_data world_magic)
  = lit "/Users/a?c/Library/Developer/Xcode/DerivedData" /\
  find_package_file fnmatch_wild world_magic
  = Some (lit "/Users/abc/Library/Developer/Xcode/DerivedData/Other-xyz/SourcePackages/checkouts/GoogleSignIn-iOS/Package.swift") /\
  exists p, find_package_file fnmatch_wild world_magic = Some p /\
    strip_prefix (str_path (derived_data world_magic)) p = None.
Proof.
  split; [vm_compute; reflexivity|]. split; [vm_compute; reflexivity|].
  eexists. split; vm_compute; reflexivity.
Qed.

(* ================================================================= *)
(** ** When a scan leaves no match of another pattern *)

Section NoNewMatch.

Variables T P : matcher.
Hypothesis T_regular : regular T.
Hypothesis P_regular : regular P.

(** The first match of a scan. *)
Lemma first_match s :
  run T s = s \/
  exists u t out rest,
    s = u ++ t /\ T t = Some (out, rest) /\ run T s = u ++ out ++ run T rest.
Proof.
  induction s as [|c s IH]; [now left|].
  destruct (T (c :: s)) as [[out rest]|] eqn:E.
  - right. exists [], (c :: s), out, rest. split; [reflexivity|].
    split; [assumption|]. now apply run_match.
  - rewrite (run_copy _ _ _ E). destruct IH as [->|[u [t [out [rest [-> [Ht ->]]]]]]].
    + now left.
    + right. now exists (c :: u), t, out, rest.
Qed.

Variable s0 : text.

(** Where [T] finds nothing, [P] finds nothing. *)
Hypothesis unmatched :
  forall a t, s0 = a ++ t -> T t = None -> P t = None.

(** No match of [P] starts inside a replacement. *)
Hypothesis inside :
  forall a t out rest, s0 = a ++ t -> T t = Some (out, rest) ->
  forall o1 o2 Z, out = o1 ++ o2 -> o2 <> [] -> P (o2 ++ Z) = None.

(** A match of [P] that reaches into a replacement was there before. *)
Hypothesis reaching :
  forall a x t out rest, s0 = a ++ x ++ t -> x <> [] ->
    T t = Some (out, rest) ->
  forall Z po pr, P (x ++ out ++ Z) = Some (po, pr) ->
    length pr < length (out ++ Z) ->
    exists qo qr, P (x ++ t) = Some (qo, qr).

Lemma head_stays c s a :
  s0 = a ++ c :: s -> T (c :: s) = None -> P (c :: run T s) = None.
Proof.
  intros Hs HT. pose proof (unmatched _ _ Hs HT) as HP.
  destruct (first_match s) as [->|[u [t [out [rest [-> [Ht ->]]]]]]];
    [assumption|].
  destruct (P (c :: u ++ out ++ run T rest)) as [[po pr]|] eqn:E;
    [exfalso|reflexivity].
  destruct (le_lt_dec (length (out ++ run T rest)) (length pr)) as [Hle|Hlt].
  - destruct (P_regular _ _ _ E) as [Mp [_ [HM Hx]]].
    change (c :: u ++ out ++ run T rest)
      with ((c :: u) ++ out ++ run T rest) in HM.
    destruct (app_cut _ _ _ _ HM) as [[k [Hk1 Hk2]]|[k [Hk1 Hk2]]].
    + rewrite Hk2, length_app in Hle. destruct k; [|simpl in Hle; lia].
      rewrite app_nil_r in Hk1.
      change (c :: u ++ t) with ((c :: u) ++ t) in HP.
      rewrite <- Hk1, Hx in HP. discriminate.
    + change (c :: u ++ t) with ((c :: u) ++ t) in HP.
      rewrite Hk1, <- app_assoc, Hx in HP. discriminate.
  - destruct (reaching a (c :: u) t out rest) with (Z := run T rest) (po := po) (pr := pr)
      as [qo [qr Hq]]; try assumption; try discriminate.
    simpl in Hq. congruence.
Qed.

Lemma no_new_match_suffix : forall n a s,
  length s = n -> s0 = a ++ s -> clean P (run T s).
Proof.
  induction n as [n IH] using lt_wf_ind. intros a s Hn Hs t1 t2 Hr.
  destruct (T s) as [[out rest]|] eqn:E.
  - rewrite (run_match _ T_regular E) in Hr.
    destruct (T_regular _ _ _ E) as [M [HM [HMs _]]].
    assert (IHrest : clean P (run T rest)).
    { apply (IH (length rest)) with (a := a ++ M); [|reflexivity|].
      - subst n. apply (regular_shorter _ T_regular E).
      - rewrite Hs, HMs. now rewrite app_assoc. }
    destruct (app_cut _ _ _ _ Hr) as [[k [Hk1 Hk2]]|[k [Hk1 Hk2]]].
    + now apply (IHrest k).
    + destruct k as [|d k].
      * simpl in Hk2. subst t2. now apply (IHrest []).
      * rewrite Hk2. apply (inside a s out rest Hs E t1 (d :: k));
          [assumption|discriminate].
  - destruct s as [|c s].
    + destruct t1; [|discriminate]. simpl in Hr. subst t2.
      apply (regular_nil _ P_regular).
    + rewrite (run_copy _ _ _ E) in Hr. destruct t1 as [|d t1].
      * simpl in Hr. subst t2. now apply (head_stays c s a).
      * simpl in Hr. injection Hr as _ Hr.
        apply (IH (length s)) with (a := a ++ [c]) (s := s) (t1 := t1);
          [subst n; simpl; lia|reflexivity| |assumption].
        rewrite Hs. now rewrite <- app_assoc.
Qed.

Lemma no_new_match : clean P (run T s0).
Proof. apply (no_new_match_suffix (length s0) [] s0); reflexivity. Qed.

End NoNewMatch.

(* ================================================================= *)
(** ** Texts with two quotes *)

(** How a text made of [L], a quoted [V] and [R] can end in a non-empty
    text [z] that begins a text made of [K], a quote and [W]: [z] lies
    after the second quote, or [K] ends at the second quote, or [K] ends
    at the first. *)
Lemma two_quote_cut (L V R K W x z z' : text) :
  quote_free L -> quote_free V -> quote_free R -> quote_free K ->
  L ++ dq :: V ++ dq :: R = x ++ z -> z ++ z' = K ++ dq :: W -> z <> [] ->
  (exists r1 k, R = r1 ++ z /\ K = z ++ k) \/
  (exists V1, V = V1 ++ K /\ z = K ++ dq :: R /\ W = R ++ z') \/
  (exists L1, L = L1 ++ K /\ z = K ++ dq :: V ++ dq :: R /\
              W = V ++ dq :: R ++ z').
Proof.
  intros HL HV HR HK H Hz Hne.
  assert (Hfirst : forall k Y, quote_free k -> z = k ++ dq :: Y ->
                     k = K /\ W = Y ++ z').
  { intros k Y Hk ->. rewrite <- app_assoc, <- app_comm_cons in Hz.
    apply first_occurrence in Hz; [|assumption|assumption].
    destruct Hz as [-> <-]. now split. }
  destruct (app_cut _ _ _ _ H) as [[k [Hk1 Hk2]]|[k [Hk1 Hk2]]].
  - destruct k as [|d k].
    + right. right. exists L. simpl in Hk2. symmetry in Hk2.
      destruct (Hfirst [] (V ++ dq :: R) (fun H => H) Hk2) as [<- ->].
      rewrite app_nil_r. split; [reflexivity|]. split; [exact Hk2|].
      now rewrite <- app_assoc, <- app_comm_cons.
    + simpl in Hk2. injection Hk2 as <- Hk2.
      destruct (app_cut _ _ _ _ Hk2) as [[k2 [Hk3 Hk4]]|[k2 [Hk3 Hk4]]].
      * destruct k2 as [|d k2].
        -- right. left. exists V. simpl in Hk4. symmetry in Hk4.
           destruct (Hfirst [] R (fun H => H) Hk4) as [<- ->].
           rewrite app_nil_r. split; [reflexivity|]. split; [exact Hk4|reflexivity].
        -- simpl in Hk4. injection Hk4 as <- Hk4. left.
           assert (Hzq : quote_free z).
           { rewrite Hk4 in HR. now apply quote_free_app in HR. }
           destruct (notin_cut _ _ _ _ _ Hz Hzq) as [k3 [Hk5 _]].
           now exists k2, k3.
      * right. left. exists k.
        assert (Hq : quote_free k2).
        { rewrite Hk3 in HV. now apply quote_free_app in HV. }
        destruct (Hfirst k2 R Hq Hk4) as [-> ->].
        split; [assumption|]. split; [assumption|reflexivity].
  - right. right. exists x.
    assert (Hq : quote_free k).
    { rewrite Hk1 in HL. now apply quote_free_app in HL. }
    destruct (Hfirst k (V ++ dq :: R) Hq Hk2) as [-> ->].
    split; [assumption|]. split; [assumption|].
    now rewrite <- app_assoc, <- app_comm_cons.
Qed.

Lemma tails_agree_app (a b X Y : text) :
  X ++ a = Y ++ b -> tails_agree a b = true.
Proof.
  intros H. apply (f_equal (@rev _)) in H. rewrite !rev_app_distr in H.
  unfold tails_agree. apply text_eqb_eq.
  set (n := Nat.min (length a) (length b)).
  apply (f_equal (firstn n)) in H.
  rewrite !firstn_app in H.
  replace (n - length (rev a)) with 0 in H by (rewrite length_rev; lia).
  replace (n - length (rev b)) with 0 in H by (rewrite length_rev; lia).
  simpl in H. now rewrite !app_nil_r in H.
Qed.

(** Refutes [X ++ a = Y ++ b] for closed [a] and [b] with different
    ends. *)
Ltac tails H := apply tails_agree_app in H; vm_compute in H; discriminate H.

(** A match that reaches beyond [x] ends in a non-empty [z] that begins
    what follows [x]. *)
Lemma reach_cut (x W Mp pr : text) :
  x ++ W = Mp ++ pr -> length pr < length W ->
  exists z, z <> [] /\ Mp = x ++ z /\ W = z ++ pr.
Proof.
  intros H Hlt. destruct (app_cut _ _ _ _ H) as [[k [Hk1 Hk2]]|[k [Hk1 Hk2]]].
  - exists k. split; [|now split]. intros ->. simpl in Hk2. subst W. lia.
  - exfalso. rewrite Hk2, length_app in Hlt. lia.
Qed.

Lemma decl_parts ws1 v ws2 :
  decl ws1 v ws2 =
  (lit ".package(" ++ ws1 ++ lit "name: ") ++ dq :: v ++ dq
    :: (lit "," ++ ws2 ++ lit "url:").
Proof.
  unfold decl, name_arg. repeat rewrite <- app_assoc.
  repeat (rewrite <- app_comm_cons || rewrite <- app_assoc). reflexivity.
Qed.

Lemma decl_left_quote_free ws1 :
  spaces ws1 -> quote_free (lit ".package(" ++ ws1 ++ lit "name: ").
Proof.
  intros H Hin. apply in_app_or in Hin. destruct Hin as [Hin|Hin]; [absent Hin|].
  apply in_app_or in Hin. destruct Hin as [Hin|Hin]; [|absent Hin].
  now apply (spaces_notin ws1 dq H).
Qed.

Lemma decl_right_quote_free ws2 :
  spaces ws2 -> quote_free (lit "," ++ ws2 ++ lit "url:").
Proof.
  intros H Hin. apply in_app_or in Hin. destruct Hin as [Hin|Hin]; [absent Hin|].
  apply in_app_or in Hin. destruct Hin as [Hin|Hin]; [|absent Hin].
  now apply (spaces_notin ws2 dq H).
Qed.

(** A match of a declaration pattern with its parts. *)
Lemma Tdecl_parts name s out rest :
  Tdecl name s = Some (out, rest) ->
  exists ws1 ws2, spaces ws1 /\ spaces ws2 /\
    s = ((lit ".package(" ++ ws1 ++ lit "name: ") ++ dq :: lit name ++ dq
          :: (lit "," ++ ws2 ++ lit "url:")) ++ rest.
Proof.
  intros H. apply decl_matcher_iff in H.
  destruct H as [_ [ws1 [ws2 [H1 [H2 ->]]]]]. exists ws1, ws2.
  now rewrite decl_parts.
Qed.

(** After a declaration step for [m], no declaration for [n] is left
    where the step found none for [m]. *)
Lemma clean_decl_after_decl n m s :
  alphabetic (lit n) = true ->
  (forall a t, s = a ++ t -> Tdecl m t = None -> Tdecl n t = None) ->
  clean (Tdecl n) (run (Tdecl m) s).
Proof.
  intros Ha Hun. apply no_new_match; try apply decl_regular; [assumption| |].
  - intros a t out rest _ HT o1 o2 Z Ho Hne.
    apply decl_matcher_iff in HT. destruct HT as [-> _].
    now apply (Tdecl_short n Z Ha o1 o2).
  - intros a x t out rest _ Hx HT Z po pr HP Hlt. exfalso.
    apply decl_matcher_iff in HT. destruct HT as [-> _].
    destruct (Tdecl_dot _ _ _ _ Ha HP) as [M [HM HnM]].
    destruct x as [|c x]; [congruence|].
    rewrite <- app_comm_cons in HM. injection HM as -> HM.
    change (decl_short ++ Z) with (dot :: lit "package(url:" ++ Z) in HM.
    symmetry in HM. destruct (notin_cut _ _ _ _ _ HM HnM) as [k [_ Hk]].
    rewrite Hk, length_app in Hlt.
    change (decl_short ++ Z) with (dot :: lit "package(url:" ++ Z) in Hlt.
    simpl in Hlt. lia.
Qed.

Lemma existsb_In (c : char) (l : text) : existsb (N.eqb c) l = true -> In c l.
Proof.
  intros H. apply existsb_exists in H. destruct H as [x [Hx E]].
  apply N.eqb_eq in E. now subst.
Qed.

(** Where a character can sit in [P0 ++ v ++ Q] when [P0] and [Q] are free
    of it. *)
Lemma in_middle {A} (x : A) P0 v Q t1 t2 :
  P0 ++ v ++ Q = t1 ++ x :: t2 -> ~ In x P0 -> ~ In x Q ->
  exists v1 v2, v = v1 ++ x :: v2 /\ t1 = P0 ++ v1 /\ t2 = v2 ++ Q.
Proof.
  intros H HP HQ.
  destruct (notin_cut _ _ _ _ _ H HP) as [k [-> Hk]].
  destruct (app_cut _ _ _ _ Hk) as [[k' [-> Hk']]|[k' [-> Hk']]].
  - exfalso. apply HQ. rewrite Hk'. apply in_or_app. right. now left.
  - destruct k' as [|y k'].
    + exfalso. apply HQ. simpl in Hk'. rewrite <- Hk'. now left.
    + simpl in Hk'. injection Hk' as <- ->. now exists k, k'.
Qed.

Lemma pin_keyword_parts v :
  pin_keyword v = (lit "revision: " ++ [dq]) ++ v ++ [dq].
Proof. unfold pin_keyword. now rewrite <- app_assoc. Qed.

(** A match of the pin pattern. *)
Lemma Trev_parts s out rest :
  Trev s = Some (out, rest) ->
  exists v, v <> [] /\ quote_free v /\ out = pin_keyword v /\
    s = (lit ".revision(" ++ dq :: v ++ dq :: lit ")") ++ rest.
Proof.
  intros H. apply revision_matcher_iff in H.
  destruct H as [v [Hne [Hq [-> ->]]]]. now exists v.
Qed.

(** A match that starts inside a converted pin would start at a dot of
    its value, and the value would open a parenthesis. *)
Lemma inside_keyword (L : text) v o1 o2 Z Y :
  quote_free v -> ~ In 40%N v -> quote_free (dot :: L) -> In 40%N L ->
  pin_keyword v = o1 ++ o2 -> o2 <> [] ->
  o2 ++ Z = (dot :: L) ++ dq :: Y -> False.
Proof.
  intros Hv Hp HL HLp Ho Hne HZ.
  destruct o2 as [|c o2]; [congruence|].
  rewrite <- !app_comm_cons in HZ. injection HZ as -> HZ.
  rewrite pin_keyword_parts in Ho.
  apply in_middle in Ho; [|intros Hin; absent Hin|intros Hin; absent Hin].
  destruct Ho as [v1 [v2 [-> [_ ->]]]].
  rewrite <- app_assoc in HZ. simpl in HZ.
  apply first_occurrence in HZ.
  - destruct HZ as [<- _]. apply Hp. apply in_or_app. right. now right.
  - intros Hin. apply Hv. apply in_or_app. right. now right.
  - intros Hin. apply HL. now right.
Qed.

(** After the pin step no declaration is left, when there was none and
    no pin value has a parenthesis. *)
Lemma clean_decl_after_rev n s :
  alphabetic (lit n) = true -> paren_free_pins s ->
  clean (Tdecl n) s -> clean (Tdecl n) (run Trev s).
Proof.
  intros Ha Hpf Hclean.
  apply no_new_match; [apply revision_regular|apply decl_regular| | |].
  - intros a t Hs _. now apply (Hclean a t).
  - intros a t out rest Hs HT o1 o2 Z Ho Hne.
    destruct (Trev_parts _ _ _ HT) as [v [_ [Hq [-> Ht]]]].
    destruct (Hpf a v rest) as [Hp _]; [now rewrite Hs, Ht|assumption|].
    destruct (Tdecl n (o2 ++ Z)) as [[po pr]|] eqn:E; [exfalso|reflexivity].
    destruct (Tdecl_parts _ _ _ _ E) as [ws1 [ws2 [H1 [H2 HE]]]].
    rewrite <- app_assoc, <- app_comm_cons in HE.
    change (lit ".package(" ++ ws1 ++ lit "name: ")
      with (dot :: (lit "package(" ++ ws1 ++ lit "name: ")) in HE.
    refine (inside_keyword _ v o1 o2 Z _ Hq Hp _ _ Ho Hne HE).
    + exact (decl_left_quote_free ws1 H1).
    + apply in_or_app. left. apply existsb_In. reflexivity.
  - intros a x t out rest Hs Hx HT Z po pr HP Hlt. exfalso.
    destruct (Trev_parts _ _ _ HT) as [v [_ [Hq [-> Ht]]]].
    destruct (Tdecl_parts _ _ _ _ HP) as [ws1 [ws2 [H1 [H2 HE]]]].
    destruct (reach_cut _ _ _ _ HE Hlt) as [z [Hz [HM HW]]].
    unfold pin_keyword in HW. rewrite <- app_assoc, <- app_comm_cons in HW.
    symmetry in HW.
    destruct (two_quote_cut _ _ _ _ _ _ _ _
                (decl_left_quote_free ws1 H1) (alphabetic_quote_free _ Ha)
                (decl_right_quote_free ws2 H2)
                (fun H : In dq (lit "revision: ") => ltac:(absent H))
                HM HW Hz)
      as [[r1 [k [HR HK]]]|[[V1 [HV _]]|[L1 [HL _]]]].
    + destruct z as [|c z]; [congruence|].
      change (lit "revision: ") with (114%N :: lit "evision: ") in HK.
      injection HK as <- HK.
      rewrite app_assoc in HR.
      apply notin_cut in HR.
      * destruct HR as [k5 [_ HR]].
        change (lit "url:") with [117%N; 114%N; 108%N; 58%N] in HR.
        change (lit "evision: ") with (101%N :: lit "vision: ") in HK.
        destruct k5 as [|c1 [|c2 [|c3 [|c4 k5]]]]; simpl in HR;
          [discriminate HR
          |injection HR as _ HR; subst z; simpl in HK; discriminate HK
          |discriminate HR
          |discriminate HR
          |injection HR as _ _ _ _ HR; destruct k5; discriminate HR].
      * intros Hin. apply in_app_or in Hin. destruct Hin as [Hin|Hin]; [absent Hin|].
        now apply (spaces_notin ws2 114%N H2).
    + apply (alphabetic_notin _ 32%N Ha); [reflexivity|].
      rewrite HV. apply in_or_app. right. apply existsb_In. reflexivity.
    + rewrite app_assoc in HL. tails HL.
Qed.

(** After the pin step no pin is left, when no pin value has a
    parenthesis. *)
Lemma clean_rev_after_rev s :
  paren_free_pins s -> clean Trev (run Trev s).
Proof.
  intros Hpf.
  apply no_new_match; [apply revision_regular|apply revision_regular| | |].
  - intros a t _ H. exact H.
  - intros a t out rest Hs HT o1 o2 Z Ho Hne.
    destruct (Trev_parts _ _ _ HT) as [v [_ [Hq [-> Ht]]]].
    destruct (Hpf a v rest) as [Hp _]; [now rewrite Hs, Ht|assumption|].
    destruct (Trev (o2 ++ Z)) as [[po pr]|] eqn:E; [exfalso|reflexivity].
    destruct (Trev_parts _ _ _ E) as [w [_ [Hw [_ HE]]]].
    rewrite <- app_assoc, <- app_comm_cons in HE.
    change (lit ".revision(") with (dot :: lit "revision(") in HE.
    refine (inside_keyword _ v o1 o2 Z _ Hq Hp _ _ Ho Hne HE).
    + intros Hin. absent Hin.
    + apply existsb_In. reflexivity.
  - intros a x t out rest Hs Hx HT Z po pr HP Hlt. exfalso.
    destruct (Trev_parts _ _ _ HT) as [v [Hv [Hq [-> Ht]]]].
    destruct (Hpf (a ++ x) v rest) as [_ Hp];
      [now rewrite Hs, Ht, <- (app_assoc a x)|assumption|].
    destruct (Trev_parts _ _ _ HP) as [w [_ [Hw [_ HE]]]].
    destruct (reach_cut _ _ _ _ HE Hlt) as [z [Hz [HM HW]]].
    unfold pin_keyword in HW. rewrite <- app_assoc, <- app_comm_cons in HW.
    symmetry in HW.
    destruct (two_quote_cut (lit ".revision(") w (lit ")") _ _ _ _ _
                (fun H : In dq (lit ".revision(") => ltac:(absent H)) Hw
                (fun H : In dq (lit ")") => ltac:(absent H))
                (fun H : In dq (lit "revision: ") => ltac:(absent H))
                HM HW Hz)
      as [[r1 [k [HR HK]]]|[[V1 [_ [_ HV]]]|[L1 [HL _]]]].
    + destruct r1 as [|c r1].
      * simpl in HR. subst z. discriminate HK.
      * change (lit ")") with [41%N] in HR. injection HR as _ HR.
        destruct r1; [|discriminate HR]. simpl in HR. now subst z.
    + rewrite <- app_assoc in HV. destruct v as [|c v]; [congruence|].
      simpl in HV. injection HV as -> _. apply Hp. now left.
    + change (lit ".revision(") with ([] ++ lit ".revision(") in HL.
      tails HL.
Qed.

Lemma rename_news n' :
  In n' (map snd rename_table) ->
  ~ In dot n' /\ ~ In 41%N n' /\ n' <> [].
Proof.
  intros H. simpl in H.
  repeat (destruct H as [<-|H];
          [split; [intros Hin; absent Hin|split; [intros Hin; absent Hin|discriminate]]|]).
  destruct H.
Qed.

(** A match of the rename table. *)
Lemma multi_parts t out rest :
  multi rename_table t = Some (out, rest) ->
  exists o n', In n' (map snd rename_table) /\ quote_free o /\
    out = pkg ++ dq :: n' ++ [dq] /\ t = pkg ++ dq :: o ++ dq :: rest.
Proof.
  intros H.
  destruct (multi_shape rename_table rename_table_quote_free _ _ _ H)
    as [o [n' [Ha [Ho [-> ->]]]]].
  exists o, n'. split; [now apply (assoc_Some_new rename_table o)|].
  now repeat split.
Qed.

Lemma reference_no_dot n' : ~ In dot n' -> ~ In dot (pkg ++ dq :: n' ++ [dq]).
Proof.
  intros Hn Hin. apply in_app_or in Hin. destruct Hin as [Hin|Hin]; [absent Hin|].
  destruct Hin as [Hin|Hin]; [discriminate|].
  apply in_app_or in Hin. destruct Hin as [Hin|Hin]; [contradiction|absent Hin].
Qed.

(** The rename step brings no declaration about. *)
Lemma clean_decl_after_rename n s :
  alphabetic (lit n) = true ->
  clean (Tdecl n) s -> clean (Tdecl n) (run (multi rename_table) s).
Proof.
  intros Ha Hclean.
  apply no_new_match;
    [apply multi_regular, rename_table_quote_free|apply decl_regular| | |].
  - intros a t Hs _. now apply (Hclean a t).
  - intros a t out rest Hs HT o1 o2 Z Ho Hne.
    destruct (multi_parts _ _ _ HT) as [o [n' [Hn' [_ [-> _]]]]].
    destruct (Tdecl n (o2 ++ Z)) as [[po pr]|] eqn:E; [exfalso|reflexivity].
    destruct (Tdecl_dot _ _ _ _ Ha E) as [M [HM _]].
    destruct o2 as [|c o2]; [congruence|]. simpl in HM. injection HM as -> _.
    apply (reference_no_dot n'); [apply (rename_news n' Hn')|].
    rewrite Ho. apply in_or_app. right. now left.
  - intros a x t out rest Hs Hx HT Z po pr HP Hlt.
    destruct (multi_parts _ _ _ HT) as [o [n' [Hn' [Ho [-> ->]]]]].
    destruct (Tdecl_parts _ _ _ _ HP) as [ws1 [ws2 [H1 [H2 HE]]]].
    destruct (reach_cut _ _ _ _ HE Hlt) as [z [Hz [HM HW]]].
    rewrite <- app_assoc, <- app_comm_cons in HW. symmetry in HW.
    destruct (two_quote_cut _ _ _ _ _ _ _ _
                (decl_left_quote_free ws1 H1) (alphabetic_quote_free _ Ha)
                (decl_right_quote_free ws2 H2) pkg_quote_free HM HW Hz)
      as [[r1 [k [HR HK]]]|[[V1 [HV _]]|[L1 [HL _]]]].
    + exists decl_short, (k ++ dq :: o ++ dq :: rest).
      apply decl_matcher_iff. split; [reflexivity|]. exists ws1, ws2.
      split; [assumption|]. split; [assumption|].
      rewrite decl_parts, HM, HK. now rewrite <- !app_assoc.
    + exfalso. apply (alphabetic_notin _ 32%N Ha); [reflexivity|].
      rewrite HV. apply in_or_app. right. apply existsb_In. reflexivity.
    + exfalso. rewrite app_assoc in HL. unfold pkg in HL. tails HL.
Qed.

(** The rename step brings no pin about. *)
Lemma clean_rev_after_rename s :
  clean Trev s -> clean Trev (run (multi rename_table) s).
Proof.
  intros Hclean.
  apply no_new_match;
    [apply multi_regular, rename_table_quote_free|apply revision_regular| | |].
  - intros a t Hs _. now apply (Hclean a t).
  - intros a t out rest Hs HT o1 o2 Z Ho Hne.
    destruct (multi_parts _ _ _ HT) as [o [n' [Hn' [_ [-> _]]]]].
    destruct (Trev (o2 ++ Z)) as [[po pr]|] eqn:E; [exfalso|reflexivity].
    destruct (Trev_parts _ _ _ E) as [w [_ [_ [_ HE]]]].
    destruct o2 as [|c o2]; [congruence|].
    change (lit ".revision(") with (dot :: lit "revision(") in HE.
    simpl in HE. injection HE as -> _.
    apply (reference_no_dot n'); [apply (rename_news n' Hn')|].
    rewrite Ho. apply in_or_app. right. now left.
  - intros a x t out rest Hs Hx HT Z po pr HP Hlt. exfalso.
    destruct (multi_parts _ _ _ HT) as [o [n' [Hn' [Ho [-> ->]]]]].
    destruct (rename_news n' Hn') as [_ [Hp Hne]].
    destruct (Trev_parts _ _ _ HP) as [w [_ [Hw [_ HE]]]].
    destruct (reach_cut _ _ _ _ HE Hlt) as [z [Hz [HM HW]]].
    rewrite <- app_assoc, <- app_comm_cons in HW. symmetry in HW.
    destruct (two_quote_cut (lit ".revision(") w (lit ")") _ _ _ _ _
                (fun H : In dq (lit ".revision(") => ltac:(absent H)) Hw
                (fun H : In dq (lit ")") => ltac:(absent H))
                pkg_quote_free HM HW Hz)
      as [[r1 [k [HR HK]]]|[[V1 [_ [_ HV]]]|[L1 [HL _]]]].
    + destruct r1 as [|c r1].
      * simpl in HR. subst z. discriminate HK.
      * change (lit ")") with [41%N] in HR. injection HR as _ HR.
        destruct r1; [|discriminate HR]. simpl in HR. now subst z.
    + rewrite <- app_assoc in HV. destruct n' as [|c n']; [congruence|].
      simpl in HV. injection HV as -> _. apply Hp. now left.
    + change (lit ".revision(") with ([] ++ lit ".revision(") in HL.
      unfold pkg in HL. tails HL.
Qed.

(* ================================================================= *)
(** ** Rewriting twice *)

Lemma simplify_clean_id s :
  (forall name, In name target_names -> clean (Tdecl name) s) ->
  simplify_declarations s = s.
Proof.
  intros Hd. rewrite simplify_declarations_fold.
  assert (H : forall L, (forall n, In n L -> In n target_names) ->
              fold_left (fun c n => run (Tdecl n) c) L s = s).
  { induction L as [|n L IH]; intros HL; [reflexivity|]. simpl.
    rewrite run_clean by (apply Hd, HL; now left).
    apply IH. intros n' Hn'. apply HL. now right. }
  now apply H.
Qed.

Lemma fold_clean_keep n L : forall x,
  alphabetic (lit n) = true ->
  clean (Tdecl n) x ->
  clean (Tdecl n) (fold_left (fun c m => run (Tdecl m) c) L x).
Proof.
  induction L as [|m L IH]; intros x Ha Hx; [assumption|].
  simpl. apply IH; [assumption|].
  apply clean_decl_after_decl; [assumption|].
  intros a t Hs _. now apply (Hx a t).
Qed.

(** The declaration step leaves no declaration of a target name. *)
Lemma simplify_clean name s :
  In name target_names -> clean (Tdecl name) (simplify_declarations s).
Proof.
  intros Hin. rewrite simplify_declarations_fold.
  pose proof (target_names_alphabetic name Hin) as Ha.
  destruct (in_split _ _ Hin) as [L1 [L2 HL]].
  rewrite HL, fold_left_app. cbn [fold_left].
  apply fold_clean_keep; [assumption|].
  apply clean_decl_after_decl; [assumption|]. intros a t _ H. exact H.
Qed.

Lemma rewrite_clean s :
  paren_free_pins (simplify_declarations s) ->
  (forall name, In name target_names -> clean (Tdecl name) (rewrite s)) /\
  clean Trev (rewrite s).
Proof.
  intros Hpf. unfold rewrite.
  rewrite rename_references_simultaneous, normalize_revision_run.
  unfold rename_simultaneous. split.
  - intros name Hin. pose proof (target_names_alphabetic name Hin) as Ha.
    apply clean_decl_after_rename; [assumption|].
    apply clean_decl_after_rev; [assumption|assumption|].
    now apply simplify_clean.
  - apply clean_rev_after_rename. now apply clean_rev_after_rev.
Qed.

Lemma rewrite_twice s :
  paren_free_pins (simplify_declarations s) -> rewrite (rewrite s) = rewrite s.
Proof.
  intros Hpf. destruct (rewrite_clean s Hpf) as [Hd Hr].
  unfold rewrite at 1.
  rewrite (simplify_clean_id _ Hd), normalize_revision_run, (run_clean _ _ Hr).
  unfold rewrite. apply rename_references_idem.
Qed.

Lemma pins_ok_suffix a x : pins_ok (a ++ x) = true -> pins_ok x = true.
Proof.
  induction a as [|c a IH]; [trivial|]. simpl. intros H.
  apply andb_prop in H. now apply IH.
Qed.

Lemma no_paren_notin v : no_paren v = true -> ~ In 40%N v /\ ~ In 41%N v.
Proof.
  unfold no_paren. rewrite forallb_forall. intros H.
  split; intros Hin; specialize (H _ Hin); discriminate.
Qed.

Lemma pins_ok_paren_free x : pins_ok x = true -> paren_free_pins x.
Proof.
  intros H a v b -> Hv. apply pins_ok_suffix in H.
  rewrite pin_call_app in H.
  change ((lit ".revision(" ++ [dq]) ++ v ++ (dq :: lit ")") ++ b)
    with (dot :: (lit "revision(" ++ [dq]) ++ v ++ (dq :: lit ")") ++ b) in H.
  cbn [pins_ok] in H. apply andb_prop in H. destruct H as [H _].
  change (dot :: (lit "revision(" ++ [dq]) ++ v ++ (dq :: lit ")") ++ b)
    with ((lit ".revision(" ++ [dq]) ++ v ++ (dq :: lit ")") ++ b) in H.
  rewrite strip_prefix_app in H.
  destruct (takewhile_app not_dq v ((dq :: lit ")") ++ b)) as [Htw Hdw].
  { now apply not_dq_quote_free. }
  { intros d t E. injection E as <- _. reflexivity. }
  rewrite Htw, Hdw, strip_prefix_app in H. now apply no_paren_notin.
Qed.

(** C4, as the code has it.  The rename step is idempotent on every buffer.
    The whole transform is idempotent on every buffer in which, once the
    declarations are simplified, no pin has a parenthesis in its value: a
    second pass changes nothing, and a second run of the rewriter on the
    rewritten file returns false and leaves the world as it is. *)
Theorem rewrite_idempotent (s : text) :
  rename_references (rename_references s) = rename_references s /\
  (paren_free_pins (simplify_declarations s) ->
   rewrite (rewrite s) = rewrite s /\
   forall w p f, w_files w p = Some f -> f_content f = rewrite s ->
     fix_package_swift p w = Returned false w).
Proof.
  split; [apply rename_references_idem|]. intros Hpf.
  pose proof (rewrite_twice s Hpf) as H.
  split; [exact H|]. intros w p f Hf Hc.
  apply (fix_unchanged p f w Hf). now rewrite Hc.
Qed.

Lemma rewrite_idempotent_witness :
  paren_free_pins (simplify_declarations sample_manifest) /\
  rewrite (rewrite sample_manifest) = rewrite sample_manifest /\
  fix_package_swift manifest_path (world_plain (rewrite sample_manifest))
  = Returned false (world_plain (rewrite sample_manifest)).
Proof.
  assert (H : paren_free_pins (simplify_declarations sample_manifest))
    by (apply pins_ok_paren_free; vm_compute; reflexivity).
  split; [exact H|].
  destruct (proj2 (rewrite_idempotent sample_manifest) H) as [H1 H2].
  split; [exact H1|].
  apply (H2 _ _ {| f_content := rewrite sample_manifest; f_mode := 292 |});
    reflexivity.
Defined.

(* ================================================================= *)
(** ** The locator, exactly *)

Section LocatorExact.

Variable fnmatch : text -> text -> bool.

Lemma flat_map_glob0 w c dirs :
  flat_map (fun d => map (join d) (glob0 w d c)) dirs =
  map (fun d => join d c) (filter (fun d => w_lexists w (join d c)) dirs).
Proof.
  induction dirs as [|d dirs IH]; [reflexivity|].
  simpl. unfold glob0 at 1. destruct (w_lexists w (join d c)); simpl; now rewrite IH.
Qed.

Lemma filter_map {A B} (f : A -> B) (p : B -> bool) l :
  filter p (map f l) = map f (filter (fun x => p (f x)) l).
Proof.
  induction l as [|x l IH]; [reflexivity|].
  simpl. destruct (p (f x)); simpl; now rewrite IH.
Qed.

Lemma filter_filter {A} (p q : A -> bool) l :
  filter q (filter p l) = filter (fun x => p x && q x) l.
Proof.
  induction l as [|x l IH]; [reflexivity|].
  simpl. destruct (p x); simpl; [destruct (q x)|]; now rewrite IH.
Qed.

(** Components without wildcards keep the directories below which they
    exist, in their order. *)
Lemma glob_from_literal_eq w cs :
  Forall (fun c => has_magic c = false) cs ->
  forall dirs,
    glob_from fnmatch w dirs cs =
    map (fold_left join cs) (filter (fun d => all_exist w d cs) dirs).
Proof.
  induction 1 as [|c cs Hc _ IH]; intros dirs.
  - simpl. induction dirs as [|d dirs IHd]; [reflexivity|]. simpl. now rewrite <- IHd.
  - cbn [glob_from]. unfold glob_in_dir. rewrite Hc.
    rewrite flat_map_glob0, IH, filter_map, map_map, filter_filter.
    reflexivity.
Qed.

End LocatorExact.

Lemma wild_star name : fnmatch_wild name (lit "*") = true.
Proof.
  unfold fnmatch_wild. change (lit "*") with [42%N]. cbn [wild N.eqb Pos.eqb].
  induction name as [|c name IH]; [reflexivity|].
  cbn [wild] in *. apply orb_true_iff. right. exact IH.
Qed.

(** X1.  With a home directory whose name has no wildcard character and an
    existing DerivedData directory, the locator returns the manifest of the
    first entry of the DerivedData listing that is a directory, has a name
    that does not begin with a dot, and has the four fixed components
    below it; it returns no path when the listing has no such entry. *)
Theorem locator_first_candidate (w : world) :
  Forall (fun c => has_magic c = false) (w_home w) ->
  w_exists w (str_path (derived_data w)) = true ->
  find_package_file fnmatch_wild w =
  hd_error
    (map (fun e => manifest_in (str_path (derived_data w)) (fst e))
       (filter (build_candidate w (str_path (derived_data w)))
          (w_scandir w (str_path (derived_data w))))).
Proof.
  intros Hhome Hex. rewrite find_first_match by assumption. f_equal.
  unfold search_pattern, glob. rewrite literal_prefix_app.
  - cbn [glob_from]. rewrite glob_from_literal_eq by (repeat constructor).
    cbn [flat_map]. rewrite app_nil_r.
    unfold glob_in_dir. change (has_magic (lit "*")) with true. cbv iota.
    unfold glob1. change (ishidden (lit "*")) with false. cbv iota.
    unfold listdir. cbn [negb orb].
    set (base := str_path (derived_data w)).
    rewrite filter_map, map_map. f_equal.
    change (negb match search_suffix with [] => false | _ :: _ => true end)
      with false. cbn [orb].
    induction (w_scandir w base) as [|[n b] l IH]; [reflexivity|].
    unfold build_candidate in *. cbn [filter map fst snd orb].
    destruct b; cbn [andb]; [|exact IH].
    cbn [filter map fst snd]. destruct (ishidden n); cbn [negb andb]; [exact IH|].
    cbn [filter]. rewrite wild_star. cbn [filter map].
    destruct (all_exist w (join base n) search_suffix); [|exact IH].
    cbn [map fst]. now rewrite IH.
  - unfold derived_data. apply Forall_app. split; [assumption|repeat constructor].
  - reflexivity.
Qed.

Lemma locator_first_candidate_witness :
  Forall (fun c => has_magic c = false) (w_home (world_plain [])) /\
  w_exists (world_plain []) (str_path (derived_data (world_plain []))) = true /\
  find_package_file fnmatch_wild (world_plain []) =
  hd_error
    (map (fun e => manifest_in (str_path (derived_data (world_plain []))) (fst e))
       (filter (build_candidate (world_plain []) (str_path (derived_data (world_plain []))))
          (w_scandir (world_plain []) (str_path (derived_data (world_plain [])))))) /\
  find_package_file fnmatch_wild (world_plain []) = Some manifest_path.
Proof.
  assert (H1 : Forall (fun c => has_magic c = false) (w_home (world_plain [])))
    by (repeat constructor).
  assert (H2 : w_exists (world_plain []) (str_path (derived_data (world_plain [])))
               = true) by reflexivity.
  split; [exact H1|]. split; [exact H2|]. split.
  - exact (locator_first_candidate (world_plain []) H1 H2).
  - vm_compute. reflexivity.
Defined.

(* ================================================================= *)
(** ** What every located path ends with *)

Section LocatorSuffix.

Variable fnmatch : text -> text -> bool.

Lemma literal_prefix_magic c ys : has_magic c = true ->
  forall xs, exists pre r, literal_prefix (xs ++ c :: ys) = (pre, r ++ c :: ys).
Proof.
  intros Hc. induction xs as [|x xs [pre [r IH]]].
  - exists [], []. simpl. now rewrite Hc.
  - simpl. destruct (has_magic x).
    + exists [], (x :: xs). reflexivity.
    + rewrite IH. now exists (x :: pre), r.
Qed.

Lemma glob_from_tail w cs :
  Forall (fun c => has_magic c = false) cs ->
  forall xs dirs p, Forall (fun d => d <> []) dirs ->
    In p (glob_from fnmatch w dirs (xs ++ cs)) ->
    exists d, d <> [] /\ p = fold_left join cs d.
Proof.
  intros Hcs. induction xs as [|x xs IH]; intros dirs p Hd Hp.
  - simpl in Hp. destruct (glob_from_literal fnmatch w cs Hcs dirs p Hp) as [d [Hin ->]].
    exists d. split; [|reflexivity]. rewrite Forall_forall in Hd. now apply Hd.
  - simpl in Hp. apply IH in Hp; [assumption|].
    apply Forall_forall. intros q Hq. apply in_flat_map in Hq.
    destruct Hq as [d [Hin Hq]]. apply in_map_iff in Hq. destruct Hq as [n [<- _]].
    apply join_nonempty. rewrite Forall_forall in Hd. now apply Hd.
Qed.

Lemma join_plain d c n :
  d <> [] -> N.eqb c sep = false -> exists D, join d (c :: n) = D ++ sep :: c :: n.
Proof.
  intros Hd Hc. unfold join. rewrite Hc.
  destruct (rev d) as [|x r] eqn:E.
  - apply (f_equal (@rev _)) in E. rewrite rev_involutive in E. simpl in E. congruence.
  - apply (f_equal (@rev _)) in E. rewrite rev_involutive in E. simpl in E.
    destruct (N.eqb x sep) eqn:Ex.
    + apply N.eqb_eq in Ex. subst x. exists (rev r). rewrite E.
      now rewrite <- app_assoc.
    + now exists d.
Qed.

Lemma join_next D n x c m :
  N.eqb x sep = false -> N.eqb c sep = false ->
  join (D ++ n ++ [x]) (c :: m) = D ++ n ++ x :: sep :: c :: m.
Proof.
  intros Hx Hc. unfold join. rewrite Hc.
  rewrite app_assoc, rev_app_distr. cbn [rev app]. rewrite Hx.
  rewrite <- !app_assoc. reflexivity.
Qed.

Lemma manifest_tail d :
  d <> [] ->
  exists D, fold_left join search_suffix d =
            D ++ lit "/SourcePackages/checkouts/GoogleSignIn-iOS/Package.swift".
Proof.
  intros Hd. unfold search_suffix. cbn [fold_left].
  destruct (join_plain d 83%N (lit "ourcePackages") Hd eq_refl) as [D HD].
  change (lit "SourcePackages") with (83%N :: lit "ourcePackages").
  rewrite HD. exists D.
  change (D ++ sep :: 83%N :: lit "ourcePackages")
    with (D ++ (sep :: lit "SourcePackage") ++ [115%N]).
  change (lit "checkouts") with (99%N :: lit "heckouts").
  rewrite join_next by reflexivity.
  change (D ++ (sep :: lit "SourcePackage") ++ 115%N :: sep :: 99%N :: lit "heckouts")
    with (D ++ (sep :: lit "SourcePackages/checkout") ++ [115%N]).
  change (lit "GoogleSignIn-iOS") with (71%N :: lit "oogleSignIn-iOS").
  rewrite join_next by reflexivity.
  change (D ++ (sep :: lit "SourcePackages/checkout") ++ 115%N :: sep :: 71%N
            :: lit "oogleSignIn-iOS")
    with (D ++ (sep :: lit "SourcePackages/checkouts/GoogleSignIn-iO") ++ [83%N]).
  change (lit "Package.swift") with (80%N :: lit "ackage.swift").
  rewrite join_next by reflexivity.
  reflexivity.
Qed.

End LocatorSuffix.

(** X2.  Whatever the home directory is, and whatever [fnmatch] accepts, a
    path that the locator returns ends with
    [/SourcePackages/checkouts/GoogleSignIn-iOS/Package.swift]. *)
Theorem located_is_manifest (fnmatch : text -> text -> bool) (w : world)
  (p : path) :
  find_package_file fnmatch w = Some p ->
  exists d,
    p = d ++ lit "/SourcePackages/checkouts/GoogleSignIn-iOS/Package.swift".
Proof.
  intros H. unfold find_package_file in H.
  destruct (negb (w_exists w (str_path (derived_data w)))); [discriminate|].
  destruct (glob fnmatch w _) as [|q l] eqn:E; [discriminate|].
  injection H as <-.
  assert (Hin : In q (glob fnmatch w (derived_data w ++ lit "*" :: search_suffix)))
    by (rewrite E; now left).
  clear E. unfold glob in Hin.
  destruct (literal_prefix_magic (lit "*") search_suffix eq_refl (derived_data w))
    as [pre [r Hlp]].
  rewrite Hlp in Hin.
  assert (Hin' : In q (glob_from fnmatch w [str_path pre]
                         ((r ++ [lit "*"]) ++ search_suffix))).
  { rewrite <- app_assoc. cbn [app].
    destruct (r ++ lit "*" :: search_suffix) eqn:Er; [|exact Hin].
    destruct r; discriminate. }
  apply glob_from_tail in Hin'.
  - destruct Hin' as [d [Hd ->]]. now apply manifest_tail.
  - repeat constructor.
  - constructor; [|constructor]. destruct pre; discriminate.
Qed.

Lemma located_is_manifest_witness :
  find_package_file fnmatch_wild world_magic
  = Some (lit "/Users/abc/Library/Developer/Xcode/DerivedData/Other-xyz/SourcePackages/checkouts/GoogleSignIn-iOS/Package.swift") /\
  exists d,
    lit "/Users/abc/Library/Developer/Xcode/DerivedData/Other-xyz/SourcePackages/checkouts/GoogleSignIn-iOS/Package.swift"
    = d ++ lit "/SourcePackages/checkouts/GoogleSignIn-iOS/Package.swift".
Proof.
  assert (H : find_package_file fnmatch_wild world_magic
              = Some (lit "/Users/abc/Library/Developer/Xcode/DerivedData/Other-xyz/SourcePackages/checkouts/GoogleSignIn-iOS/Package.swift"))
    by (vm_compute; reflexivity).
  split; [exact H|].
  exact (located_is_manifest fnmatch_wild world_magic _ H).
Defined.

(* ================================================================= *)
(** ** The entry point: failures, frame and a second run *)

Lemma fix_missing p w :
  w_files w p = None -> fix_package_swift p w = Raised (FileNotFoundError p) w.
Proof. intros H. unfold fix_package_swift, bind, read_text. now rewrite H. Qed.

Section EntryPoint.

Variable fnmatch : text -> text -> bool.

Lemma main_missing w p :
  find_package_file fnmatch w = Some p -> w_files w p = None ->
  main fnmatch w = Raised (FileNotFoundError p) (printed [msg_found p] w).
Proof.
  intros H Hf. pose proof (find_nonempty fnmatch w p H) as Hne.
  destruct p as [|c p]; [congruence|].
  unfold main, bind, query. rewrite H. unfold print at 1.
  change {| w_home := w_home w; w_umask := w_umask w; w_files := w_files w;
            w_exists := w_exists w; w_lexists := w_lexists w;
            w_scandir := w_scandir w; w_journal := w_journal w;
            w_stdout := w_stdout w ++ [msg_found (c :: p)] |}
    with (printed [msg_found (c :: p)] w).
  now rewrite (fix_missing (c :: p) (printed [msg_found (c :: p)] w) Hf).
Qed.

(** The three ways a run of the entry point ends. *)
Lemma main_cases w :
  (find_package_file fnmatch w = None /\
   main fnmatch w = Returned tt (printed [msg_not_found; msg_resolve_first] w)) \/
  (exists p, find_package_file fnmatch w = Some p /\ w_files w p = None /\
     main fnmatch w = Raised (FileNotFoundError p) (printed [msg_found p] w)) \/
  (exists p f, find_package_file fnmatch w = Some p /\ w_files w p = Some f /\
     ((rewrite (f_content f) = f_content f /\
       main fnmatch w = Returned tt (printed [msg_found p; msg_already] w)) \/
      (rewrite (f_content f) <> f_content f /\
       main fnmatch w =
       Returned tt (printed [msg_found p; msg_fixed] (rewritten p f w))))).
Proof.
  destruct (find_package_file fnmatch w) as [p|] eqn:H.
  - right. destruct (w_files w p) as [f|] eqn:Hf.
    + right. exists p, f. split; [reflexivity|]. split; [assumption|].
      rewrite (main_found fnmatch w p f H Hf).
      destruct (text_eqb (rewrite (f_content f)) (f_content f)) eqn:E.
      * left. apply text_eqb_eq in E. now split.
      * right. apply text_eqb_neq in E. now split.
    + left. exists p. split; [reflexivity|]. split; [assumption|].
      now apply main_missing.
  - left. split; [reflexivity|]. now apply main_not_found.
Qed.

(** The locator reads the home directory and the directory structure, and
    nothing else of the world. *)
Lemma glob_from_stable w w' comps :
  w_lexists w' = w_lexists w -> w_scandir w' = w_scandir w ->
  forall dirs, glob_from fnmatch w' dirs comps = glob_from fnmatch w dirs comps.
Proof.
  intros Hl Hs. induction comps as [|c cs IH]; intros dirs; [reflexivity|].
  cbn [glob_from]. rewrite IH. f_equal.
  unfold glob_in_dir, glob1, glob0, listdir. now rewrite Hl, Hs.
Qed.

Lemma find_stable w w' :
  w_home w' = w_home w -> w_exists w' = w_exists w ->
  w_lexists w' = w_lexists w -> w_scandir w' = w_scandir w ->
  find_package_file fnmatch w' = find_package_file fnmatch w.
Proof.
  intros Hh He Hl Hs. unfold find_package_file, derived_data, glob.
  rewrite Hh, He, Hl.
  destruct (literal_prefix _) as [pre rest].
  destruct rest; [reflexivity|]. now rewrite (glob_from_stable w w').
Qed.

End EntryPoint.




(** X5.  A second run of the entry point on a manifest whose pins have no
    parenthesis in their values, once the declarations are simplified,
    finds the same file, reports that it needs no fixing and leaves the
    world as the first run left it, but for the two lines it prints. *)
Theorem main_second_run (fnmatch : text -> text -> bool) (w : world)
  (p : path) (f : file) :
  find_package_file fnmatch w = Some p -> w_files w p = Some f ->
  paren_free_pins (simplify_declarations (f_content f)) ->
  exists w1,
    main fnmatch w = Returned tt w1 /\
    main fnmatch w1 = Returned tt (printed [msg_found p; msg_already] w1).
Proof.
  intros H Hf Hpf.
  destruct (main_cases fnmatch w)
    as [[H' _]|[[p' [H' [Hf' _]]]|[p' [f' [H' [Hf' E]]]]]]; try congruence.
  assert (p' = p) by congruence. subst p'.
  assert (f' = f) by congruence. subst f'.
  destruct E as [[He E]|[He E]]; rewrite E.
  - eexists. split; [reflexivity|].
    rewrite (main_found fnmatch _ p f).
    + now rewrite He, text_eqb_refl.
    + rewrite <- H. now apply find_stable.
    + exact Hf.
  - eexists. split; [reflexivity|].
    rewrite (main_found fnmatch _ p
               {| f_content := rewrite (f_content f); f_mode := 420 |}).
    + cbn [f_content]. now rewrite (rewrite_twice _ Hpf), text_eqb_refl.
    + rewrite <- H. now apply find_stable.
    + unfold printed, rewritten, with_file. cbn [w_files].
      unfold set_file. now rewrite text_eqb_refl.
Qed.

Lemma main_second_run_witness :
  find_package_file fnmatch_wild (world_plain sample_manifest)
  = Some manifest_path /\
  w_files (world_plain sample_manifest) manifest_path
  = Some {| f_content := sample_manifest; f_mode := 292 |} /\
  paren_free_pins (simplify_declarations sample_manifest) /\
  exists w1,
    main fnmatch_wild (world_plain sample_manifest) = Returned tt w1 /\
    main fnmatch_wild w1 =
    Returned tt (printed [msg_found manifest_path; msg_already] w1).
Proof.
  assert (H1 : find_package_file fnmatch_wild (world_plain sample_manifest)
               = Some manifest_path) by (vm_compute; reflexivity).
  assert (H2 : w_files (world_plain sample_manifest) manifest_path
               = Some {| f_content := sample_manifest; f_mode := 292 |})
    by (vm_compute; reflexivity).
  assert (H3 : paren_free_pins (simplify_declarations sample_manifest))
    by (apply pins_ok_paren_free; vm_compute; reflexivity).
  split; [exact H1|]. split; [exact H2|]. split; [exact H3|].
  exact (main_second_run fnmatch_wild (world_plain sample_manifest)
           manifest_path _ H1 H2 H3).
Defined.

(* ================================================================= *)
(** ** What a step leaves behind *)

Lemma plain_not_ending v V1 : plain v -> v <> V1 ++ pkg.
Proof.
  intros [_ H] E. rewrite E, ends_with_app in H. discriminate.
Qed.

Lemma rename_olds_plain o n : assoc rename_table o = Some n -> plain o.
Proof.
  intros H. apply assoc_Some_In in H. apply (in_map fst) in H.
  pose proof rename_table_plain as Hp. rewrite Forall_forall in Hp. now apply Hp.
Qed.

Lemma rename_news_plain n' : In n' (map snd rename_table) -> plain n'.
Proof.
  intros H. destruct rename_table_ok as [_ [_ [Hp _]]].
  rewrite Forall_forall in Hp. now apply Hp.
Qed.

(** The rename step leaves no reference to an old value. *)
Lemma clean_rename_after_rename s :
  clean (multi rename_table) (run (multi rename_table) s).
Proof.
  pose proof (multi_regular rename_table rename_table_quote_free) as Hreg.
  apply no_new_match; [exact Hreg|exact Hreg| | |].
  - intros a t _ H. exact H.
  - intros a t out rest Hs HT o1 o2 Z Ho Hne.
    destruct (multi_parts _ _ _ HT) as [o [n' [Hn' [_ [-> _]]]]].
    destruct (multi rename_table (o2 ++ Z)) as [[po pr]|] eqn:E;
      [exfalso|reflexivity].
    destruct (multi_shape rename_table rename_table_quote_free _ _ _ E)
      as [o' [n2 [Ha [Ho' [HE _]]]]].
    pose proof (rename_news_plain n' Hn') as Hpl.
    destruct (two_quote_cut pkg n' [] pkg (o' ++ dq :: pr) o1 o2 Z
                pkg_quote_free (proj1 Hpl) (fun H => H) pkg_quote_free
                Ho HE Hne)
      as [[r1 [k [HR _]]]|[[V1 [HV _]]|[L1 [_ [_ HW]]]]].
    + destruct r1; [|discriminate HR]. simpl in HR. congruence.
    + now apply (plain_not_ending n' V1).
    + cbn [app] in HW. apply first_occurrence in HW;
        [|assumption|exact (proj1 Hpl)].
      destruct HW as [<- _].
      destruct rename_table_ok as [_ [_ [_ Hd]]].
      apply (Hd o' Hn'). apply assoc_Some_In in Ha. now apply (in_map fst) in Ha.
  - intros a x t out rest Hs Hx HT Z po pr HP Hlt. exfalso.
    destruct (multi_parts _ _ _ HT) as [o [n' [Hn' [Ho [-> ->]]]]].
    destruct (multi_shape rename_table rename_table_quote_free _ _ _ HP)
      as [o' [n2 [Ha [Ho' [HE _]]]]].
    assert (HE' : x ++ (pkg ++ dq :: n' ++ [dq]) ++ Z
                  = (pkg ++ dq :: o' ++ [dq]) ++ pr).
    { rewrite HE. rewrite <- app_assoc. cbn [app]. now rewrite <- app_assoc. }
    destruct (reach_cut _ _ _ _ HE' Hlt) as [z [Hz [HM HW]]].
    rewrite <- app_assoc, <- app_comm_cons in HW. symmetry in HW.
    destruct (two_quote_cut pkg o' [] pkg _ x z pr
                pkg_quote_free Ho' (fun H => H) pkg_quote_free HM HW Hz)
      as [[r1 [k [HR _]]]|[[V1 [HV _]]|[L1 [_ [Hzz _]]]]].
    + destruct r1; [|discriminate HR]. simpl in HR. congruence.
    + now apply (plain_not_ending o' V1 (rename_olds_plain o' n2 Ha)).
    + rewrite Hzz in HM. apply (f_equal (@length _)) in HM.
      destruct x; [congruence|].
      repeat (rewrite length_app in HM || cbn [length app] in HM). lia.
Qed.

Lemma clean_no_decl name x :
  clean (Tdecl name) x ->
  forall ws1 ws2 a b, spaces ws1 -> spaces ws2 ->
    x <> a ++ decl ws1 (lit name) ws2 ++ b.
Proof.
  intros Hc ws1 ws2 a b H1 H2 E. specialize (Hc _ _ E).
  assert (H : Tdecl name (decl ws1 (lit name) ws2 ++ b) = Some (decl_short, b)).
  { apply decl_matcher_iff. split; [reflexivity|]. now exists ws1, ws2. }
  congruence.
Qed.

Lemma clean_no_pin x :
  clean Trev x ->
  forall v a b, v <> [] -> quote_free v -> x <> a ++ pin_call v ++ b.
Proof.
  intros Hc v a b Hne Hq E. specialize (Hc _ _ E).
  assert (H : Trev (pin_call v ++ b) = Some (pin_keyword v, b)).
  { apply revision_matcher_iff. now exists v. }
  congruence.
Qed.

Lemma clean_no_reference x :
  clean (multi rename_table) x ->
  forall o n a b, In (o, n) rename_table -> x <> a ++ reference o ++ b.
Proof.
  intros Hc o n a b Hin E. specialize (Hc _ _ E).
  rewrite (multi_hit rename_table rename_table_quote_free o n) in Hc;
    [discriminate| |].
  - apply assoc_In; [exact (proj1 rename_table_ok)|assumption].
  - pose proof rename_table_quote_free as Hq. rewrite Forall_forall in Hq.
    apply Hq. now apply (in_map fst) in Hin.
Qed.

(** X6.  The declaration step is idempotent on every buffer, and its result
    holds no two-argument declaration head of any of the six target names
    with white space where the pattern allows it. *)
Theorem declarations_gone (s : text) :
  simplify_declarations (simplify_declarations s) = simplify_declarations s /\
  forall name ws1 ws2 a b,
    In name target_names -> spaces ws1 -> spaces ws2 ->
    simplify_declarations s <> a ++ decl ws1 (lit name) ws2 ++ b.
Proof.
  split.
  - apply simplify_clean_id. intros name Hin. now apply simplify_clean.
  - intros name ws1 ws2 a b Hin. apply clean_no_decl. now apply simplify_clean.
Qed.

(** X7.  The rename step leaves no reference to any of the five old
    values anywhere in its result. *)
Theorem references_gone (s : text) (o n a b : text) :
  In (o, n) rename_table -> rename_references s <> a ++ reference o ++ b.
Proof.
  intros Hin. refine (clean_no_reference _ _ o n a b Hin).
  rewrite rename_references_simultaneous. apply clean_rename_after_rename.
Qed.

Lemma references_gone_witness :
  In (lit "AppCheck", lit "app-check") rename_table /\
  rename_references (ref "AppCheck" ++ ref "AppCheck")
  <> ref "app-check" ++ reference (lit "AppCheck") ++ [].
Proof.
  assert (H : In (lit "AppCheck", lit "app-check") rename_table)
    by (simpl; tauto).
  split; [exact H|].
  exact (references_gone (ref "AppCheck" ++ ref "AppCheck") _ _
           (ref "app-check") [] H).
Defined.

(** X8.  On a buffer whose pins have no parenthesis in their values, the
    pin step is idempotent and its result holds no function-call-style pin
    with a non-empty value free of double quotes. *)
Theorem pins_gone (s : text) :
  paren_free_pins s ->
  normalize_revision (normalize_revision s) = normalize_revision s /\
  forall v a b, v <> [] -> quote_free v ->
    normalize_revision s <> a ++ pin_call v ++ b.
Proof.
  intros Hpf. pose proof (clean_rev_after_rev s Hpf) as Hc.
  rewrite <- normalize_revision_run in Hc. split.
  - rewrite (normalize_revision_run (normalize_revision s)). now apply run_clean.
  - now apply clean_no_pin.
Qed.

Lemma pins_gone_witness :
  paren_free_pins (pin_call (lit "a.b") ++ pin_call (lit "1.2.3")) /\
  normalize_revision
    (normalize_revision (pin_call (lit "a.b") ++ pin_call (lit "1.2.3")))
  = normalize_revision (pin_call (lit "a.b") ++ pin_call (lit "1.2.3")).
Proof.
  assert (H : paren_free_pins (pin_call (lit "a.b") ++ pin_call (lit "1.2.3")))
    by (apply pins_ok_paren_free; vm_compute; reflexivity).
  split; [exact H|].
  exact (proj1 (pins_gone _ H)).
Defined.

(** X9.  When, once the declarations are simplified, no pin has a
    parenthesis in its value, the rewritten buffer holds none of the forms
    the rewriter looks for: no declaration head of a target name, no
    function-call-style pin and no reference to an old value. *)
Theorem rewritten_has_no_target (s : text) :
  paren_free_pins (simplify_declarations s) ->
  untargeted (rewrite s) /\
  (forall name ws1 ws2 a b,
     In name target_names -> spaces ws1 -> spaces ws2 ->
     rewrite s <> a ++ decl ws1 (lit name) ws2 ++ b) /\
  (forall v a b, v <> [] -> quote_free v ->
     rewrite s <> a ++ pin_call v ++ b) /\
  (forall o n a b, In (o, n) rename_table ->
     rewrite s <> a ++ reference o ++ b).
Proof.
  intros Hpf. destruct (rewrite_clean s Hpf) as [Hd Hr].
  assert (Hm : clean (multi rename_table) (rewrite s)).
  { unfold rewrite. rewrite rename_references_simultaneous.
    apply clean_rename_after_rename. }
  split; [now repeat split|]. split; [|split].
  - intros name ws1 ws2 a b Hin. apply clean_no_decl. now apply Hd.
  - now apply clean_no_pin.
  - now apply clean_no_reference.
Qed.

Lemma rewritten_has_no_target_witness :
  paren_free_pins (simplify_declarations sample_manifest) /\
  untargeted (rewrite sample_manifest).
Proof.
  assert (H : paren_free_pins (simplify_declarations sample_manifest))
    by (apply pins_ok_paren_free; vm_compute; reflexivity).
  split; [exact H|].
  exact (proj1 (rewritten_has_no_target sample_manifest H)).
Defined.

(* ================================================================= *)
(** ** When the transform changes a buffer *)

Lemma new_not_old d : new_char d = true -> old_char d = false.
Proof.
  unfold new_char. rewrite !orb_true_iff, !N.eqb_eq.
  intros [[[->| ->]| ->]| ->]; reflexivity.
Qed.

Lemma old_new_differ c d : old_char c = true -> new_char d = true -> c <> d.
Proof. intros Hc Hd ->. rewrite (new_not_old d Hd) in Hc. discriminate. Qed.

Lemma differ_at_neq u c d a b : differ_at u c d a b -> a <> b.
Proof.
  intros [Hcd [a' [b' [-> ->]]]] E. apply app_inv_head in E. congruence.
Qed.

(** A marking function keeps a buffer apart from one that its argument
    is marked against. *)
Lemma marking_after G x y u c d :
  marking G -> old_char c = true -> new_char d = true -> differ_at u c d x y ->
  exists u' c' d', old_char c' = true /\ new_char d' = true /\
                   differ_at u' c' d' x (G y).
Proof.
  intros HG Hc Hd HD.
  destruct (HG y) as [E|[u' [c' [d' [Hc' [Hd' HD']]]]]].
  - rewrite E. now exists u, c, d.
  - destruct HD as [Hcd [a1 [b1 [Hx Hy]]]].
    destruct HD' as [Hcd' [a2 [b2 [Hy' HG']]]].
    rewrite Hy in Hy'.
    destruct (app_cut _ _ _ _ Hy') as [[k [Hk1 Hk2]]|[k [Hk1 Hk2]]].
    + destruct k as [|e k].
      * simpl in Hk2. injection Hk2 as <- _.
        rewrite (new_not_old d Hd) in Hc'. discriminate.
      * simpl in Hk2. injection Hk2 as He Hk2. subst e.
        exists u, c, d. split; [assumption|]. split; [assumption|].
        split; [assumption|].
        exists a1, (k ++ d' :: b2). split; [assumption|].
        rewrite HG', Hk1, <- app_assoc. reflexivity.
    + destruct k as [|e k].
      * simpl in Hk2. injection Hk2 as He _. rewrite He in Hc'.
        rewrite (new_not_old d Hd) in Hc'. discriminate.
      * simpl in Hk2. injection Hk2 as He Hk2. subst e.
        exists u', c', d'. split; [assumption|]. split; [assumption|].
        split; [assumption|].
        exists (k ++ c :: a1), b2. split; [|assumption].
        rewrite Hx, Hk1, <- app_assoc. reflexivity.
Qed.

(** Two marking functions one after the other. *)
Lemma marking_compose F G :
  marking F -> marking G -> marking (fun x => G (F x)).
Proof.
  intros HF HG x. cbv beta.
  destruct (HF x) as [E|[u [c [d [Hc [Hd HD]]]]]].
  - rewrite E. apply HG.
  - right. now apply (marking_after G x (F x) u c d).
Qed.

(** A composition of marking functions that leaves a buffer as it is has
    left it so at each of the two steps. *)
Lemma marking_fixed F G x :
  marking F -> marking G -> G (F x) = x -> F x = x /\ G x = x.
Proof.
  intros HF HG E.
  assert (HFx : F x = x).
  { destruct (HF x) as [Ex|[u [c [d [Hc [Hd HD]]]]]]; [assumption|]. exfalso.
    destruct (marking_after G x (F x) u c d HG Hc Hd HD)
      as [u' [c' [d' [_ [_ H]]]]].
    apply (differ_at_neq _ _ _ _ _ H). now symmetry. }
  split; [assumption|]. now rewrite HFx in E.
Qed.

Section Swapping.

Variable T : matcher.
Hypothesis T_regular : regular T.
Hypothesis T_swapping : swapping T.

Lemma run_marking : marking (run T).
Proof.
  intros x. destruct (first_match T T_regular x)
    as [E|[u [t [out [rest [-> [Ht ->]]]]]]]; [now left|right].
  destruct (T_regular _ _ _ Ht) as [M [_ [HM _]]].
  destruct (T_swapping _ _ _ Ht) as [pre [c [d [t' [out' [Hc [Hd [Et Eo]]]]]]]].
  exists (u ++ pre), c, d. split; [assumption|]. split; [assumption|].
  split; [now apply old_new_differ|].
  exists t', (out' ++ run T rest). split.
  - now rewrite Et, <- app_assoc.
  - rewrite Eo, <- !app_assoc. reflexivity.
Qed.

(** A scan that leaves a buffer as it is has found no match in it. *)
Lemma run_fixed_clean s : run T s = s -> clean T s.
Proof.
  induction s as [|c s IH]; intros E t1 t2 Hs.
  - destruct t1; [|discriminate]. simpl in Hs. subst t2.
    apply (regular_nil T T_regular).
  - destruct (T (c :: s)) as [[out rest]|] eqn:Ht.
    + exfalso. rewrite (run_match T T_regular Ht) in E.
      destruct (T_swapping _ _ _ Ht) as [pre [c0 [d [t' [out' [Hc [Hd [Et Eo]]]]]]]].
      rewrite Et, Eo, <- app_assoc in E. apply app_inv_head in E.
      simpl in E. injection E as E _. symmetry in E.
      now apply (old_new_differ c0 d Hc Hd).
    + rewrite (run_copy T c s Ht) in E. injection E as E.
      destruct t1 as [|d t1].
      * simpl in Hs. now subst t2.
      * simpl in Hs. injection Hs as _ Hs. now apply (IH E t1 t2).
Qed.

End Swapping.

Lemma decl_swapping name : swapping (Tdecl name).
Proof.
  intros t out rest H. apply decl_matcher_iff in H.
  destruct H as [-> [ws1 [ws2 [H1 [_ ->]]]]].
  exists (lit ".package(").
  destruct ws1 as [|c ws1].
  - exists 110%N, 117%N. eexists. exists (lit "rl:").
    split; [reflexivity|]. split; [reflexivity|]. split; [|reflexivity].
    rewrite decl_app. cbn [app]. unfold name_arg.
    change (lit "name: ") with (110%N :: lit "ame: ").
    rewrite <- !app_comm_cons. reflexivity.
  - exists c, 117%N. eexists. exists (lit "rl:").
    inversion H1 as [|? ? Hc _]; subst.
    split; [unfold old_char; now rewrite Hc|]. split; [reflexivity|].
    split; [|reflexivity].
    rewrite decl_app. rewrite <- app_comm_cons. reflexivity.
Qed.

Lemma rev_swapping : swapping Trev.
Proof.
  intros t out rest H. apply revision_matcher_iff in H.
  destruct H as [v [_ [_ [-> ->]]]].
  exists [], 46%N, 114%N. eexists. eexists.
  split; [reflexivity|]. split; [reflexivity|]. split.
  - unfold pin_call. change (lit ".revision(") with (46%N :: lit "revision(").
    rewrite <- !app_comm_cons. reflexivity.
  - unfold pin_keyword. change (lit "revision: ") with (114%N :: lit "evision: ").
    rewrite <- !app_comm_cons. reflexivity.
Qed.

Lemma rename_swapping : swapping (multi rename_table).
Proof.
  intros t out rest H.
  destruct (multi_shape rename_table rename_table_quote_free _ _ _ H)
    as [o [n [Ha [_ [-> ->]]]]].
  apply assoc_Some_In in Ha. exists (pkg ++ [dq]).
  assert (Hsw : exists c d o' n', old_char c = true /\ new_char d = true /\
                  o = c :: o' /\ n = d :: n').
  { simpl in Ha.
    repeat (destruct Ha as [Ha|Ha];
            [injection Ha as <- <-; do 4 eexists;
             split; [|split; [|split; reflexivity]]; reflexivity|]).
    destruct Ha. }
  destruct Hsw as [c [d [o' [n' [Hc [Hd [-> ->]]]]]]].
  exists c, d. eexists. eexists. split; [assumption|]. split; [assumption|].
  unfold reference. fold pkg. split; rewrite <- app_assoc; reflexivity.
Qed.

Lemma decl_steps_marking L :
  marking (fun x => fold_left (fun c n => run (Tdecl n) c) L x).
Proof.
  induction L as [|n L IH].
  - intros x. now left.
  - cbn [fold_left].
    apply (marking_compose (run (Tdecl n)) _); [|exact IH].
    apply run_marking; [apply decl_regular|apply decl_swapping].
Qed.

Lemma decl_steps_fixed L : forall s,
  fold_left (fun c n => run (Tdecl n) c) L s = s ->
  forall n, In n L -> run (Tdecl n) s = s.
Proof.
  induction L as [|m L IH]; intros s E n Hin; [destruct Hin|].
  cbn [fold_left] in E.
  destruct (marking_fixed (run (Tdecl m))
              (fun x => fold_left (fun c n => run (Tdecl n) c) L x) s)
    as [E1 E2]; [|apply decl_steps_marking|exact E|].
  - apply run_marking; [apply decl_regular|apply decl_swapping].
  - destruct Hin as [<-|Hin]; [assumption|]. now apply IH.
Qed.

Lemma rewrite_fixed_untargeted s : rewrite s = s -> untargeted s.
Proof.
  intros E. unfold rewrite in E.
  rewrite rename_references_simultaneous in E. unfold rename_simultaneous in E.
  assert (Hm : marking (run (multi rename_table))).
  { apply run_marking;
      [apply multi_regular, rename_table_quote_free|apply rename_swapping]. }
  assert (Hr : marking (run Trev)).
  { apply run_marking; [apply revision_regular|apply rev_swapping]. }
  assert (Hd : marking simplify_declarations).
  { intros x. rewrite simplify_declarations_fold. apply decl_steps_marking. }
  destruct (marking_fixed (fun x => normalize_revision (simplify_declarations x))
              (run (multi rename_table)) s) as [E1 E2]; [|exact Hm|exact E|].
  { intros x. rewrite normalize_revision_run.
    apply (marking_compose simplify_declarations (run Trev) Hd Hr). }
  cbv beta in E1. rewrite normalize_revision_run in E1.
  destruct (marking_fixed simplify_declarations (run Trev) s Hd Hr E1)
    as [E3 E4].
  split; [|split].
  - intros name Hin. apply run_fixed_clean;
      [apply decl_regular|apply decl_swapping|].
    rewrite simplify_declarations_fold in E3.
    now apply (decl_steps_fixed target_names).
  - apply run_fixed_clean; [apply revision_regular|apply rev_swapping|assumption].
  - apply run_fixed_clean;
      [apply multi_regular, rename_table_quote_free|apply rename_swapping
      |assumption].
Qed.

(** X10.  The transform leaves a buffer as it is exactly when none of the
    patterns starts anywhere in it.  So the rewriter returns false, and
    writes nothing, exactly for such files; a file that holds a
    declaration head of a target name, a function-call-style pin or a
    reference to an old value is changed. *)
Theorem changes_detected (s : text) :
  (rewrite s = s <-> untargeted s) /\
  (forall w p f, w_files w p = Some f -> f_content f = s ->
     (fix_package_swift p w = Returned false w <-> untargeted s)) /\
  (forall name ws1 ws2 a b,
     In name target_names -> spaces ws1 -> spaces ws2 ->
     s = a ++ decl ws1 (lit name) ws2 ++ b -> rewrite s <> s) /\
  (forall v a b, v <> [] -> quote_free v ->
     s = a ++ pin_call v ++ b -> rewrite s <> s) /\
  (forall o n a b, In (o, n) rename_table ->
     s = a ++ reference o ++ b -> rewrite s <> s).
Proof.
  assert (Hiff : rewrite s = s <-> untargeted s)
    by (split; [apply rewrite_fixed_untargeted|apply untargeted_rewrite]).
  split; [exact Hiff|]. split; [|split; [|split]].
  - intros w p f Hf Hc. subst s. rewrite <- Hiff. split.
    + intros H.
      destruct (list_eq_dec N.eq_dec (rewrite (f_content f)) (f_content f))
        as [E|E]; [assumption|].
      rewrite (fix_changed p f w Hf E) in H. discriminate.
    + now apply fix_unchanged.
  - intros name ws1 ws2 a b Hin H1 H2 Hs E. apply Hiff in E.
    destruct E as [Hd _]. now apply (clean_no_decl name s (Hd name Hin) ws1 ws2 a b).
  - intros v a b Hne Hq Hs E. apply Hiff in E.
    destruct E as [_ [Hr _]]. now apply (clean_no_pin s Hr v a b).
  - intros o n a b Hin Hs E. apply Hiff in E.
    destruct E as [_ [_ Hm]]. now apply (clean_no_reference s Hm o n a b).
Qed.

Lemma changes_detected_witness :
  In "OCMock"%string target_names /\ spaces [10%N] /\ spaces [] /\
  rewrite (lit "x" ++ decl [10%N] (lit "OCMock") [] ++ lit "y")
  <> lit "x" ++ decl [10%N] (lit "OCMock") [] ++ lit "y".
Proof.
  assert (H1 : In "OCMock"%string target_names) by (simpl; tauto).
  assert (H2 : spaces [10%N]) by (repeat constructor).
  assert (H3 : spaces []) by constructor.
  split; [exact H1|]. split; [exact H2|]. split; [exact H3|].
  exact (proj1 (proj2 (proj2 (changes_detected _)))
           "OCMock"%string [10%N] [] (lit "x") (lit "y") H1 H2 H3 eq_refl).
Defined.

(* ================================================================= *)
(** ** The order of the declaration substitutions *)

Lemma last_dot (s : text) :
  ~ In dot s \/ exists a b, s = a ++ dot :: b /\ ~ In dot b.
Proof.
  induction s as [|c s [IH|[a [b [-> Hb]]]]].
  - left. intros [].
  - destruct (N.eq_dec c dot) as [->|Hc].
    + right. now exists [], s.
    + left. intros [H|H]; [now apply Hc|now apply IH].
  - right. now exists (c :: a), b.
Qed.

Lemma dot_free_fixed name u :
  alphabetic (lit name) = true -> ~ In dot u -> run (Tdecl name) u = u.
Proof.
  intros Ha Hu. apply run_clean. intros t1 t2 ->.
  destruct (Tdecl name t2) as [[out rest]|] eqn:E; [exfalso|reflexivity].
  destruct (Tdecl_dot _ _ _ _ Ha E) as [M [-> _]].
  apply Hu. apply in_or_app. right. now left.
Qed.

Lemma segment_head name b :
  exists b', run (Tdecl name) (dot :: b) = dot :: b'.
Proof.
  destruct (Tdecl name (dot :: b)) as [[out rest]|] eqn:E.
  - rewrite (run_match (Tdecl name) (decl_regular name) E).
    apply decl_matcher_iff in E. destruct E as [-> _].
    now exists (lit "package(url:" ++ run (Tdecl name) rest).
  - rewrite (run_copy _ _ _ E). now eexists.
Qed.

Lemma decl_rest_free ws1 v ws2 rest b :
  dot :: b = decl ws1 v ws2 ++ rest -> ~ In dot b -> ~ In dot rest.
Proof.
  intros E Hb Hin. apply Hb. rewrite decl_dot in E.
  rewrite <- app_comm_cons in E. apply cons_inv in E. rewrite E.
  apply in_or_app. now right.
Qed.

(** On one segment, from a dot to the next, two declaration steps for
    different names commute. *)
Lemma segment_commute n m b :
  alphabetic (lit n) = true -> alphabetic (lit m) = true -> n <> m ->
  ~ In dot b ->
  (forall out rest, Tdecl n (dot :: b) = Some (out, rest) ->
     run (Tdecl m) (run (Tdecl n) (dot :: b)) = run (Tdecl n) (dot :: b) /\
     run (Tdecl m) (dot :: b) = dot :: b).
Proof.
  intros Hn Hm Hne Hb out rest E.
  rewrite (run_match (Tdecl n) (decl_regular n) E).
  apply decl_matcher_iff in E. destruct E as [-> [ws1 [ws2 [H1 [H2 E]]]]].
  pose proof (decl_rest_free _ _ _ _ _ E Hb) as Hr.
  rewrite (dot_free_fixed n rest Hn Hr). split.
  - pose proof (frame_short m [] rest Hm) as H. cbn [app] in H.
    rewrite H, (dot_free_fixed m rest Hm Hr). reflexivity.
  - rewrite E.
    pose proof (frame_other m ws1 (lit n) ws2 [] rest H1 H2
                  (alphabetic_quote_free _ Hn) Hm) as H.
    cbn [app] in H. rewrite H, (dot_free_fixed m rest Hm Hr); [reflexivity|].
    intros El. apply lit_inj in El. now apply Hne.
Qed.

Lemma decl_steps_commute n m :
  alphabetic (lit n) = true -> alphabetic (lit m) = true ->
  forall s, run (Tdecl m) (run (Tdecl n) s) = run (Tdecl n) (run (Tdecl m) s).
Proof.
  intros Hn Hm.
  destruct (string_dec n m) as [->|Hne]; [reflexivity|].
  intros s. remember (length s) as k eqn:Hk. revert s Hk.
  induction k as [k IH] using lt_wf_ind. intros s Hk.
  destruct (last_dot s) as [Hs|[a [b [-> Hb]]]].
  - now rewrite !(dot_free_fixed _ s) by assumption.
  - rewrite (run_Tdecl_dot n a b Hn), (run_Tdecl_dot m a b Hm).
    destruct (segment_head n b) as [bn Ebn].
    destruct (segment_head m b) as [bm Ebm].
    rewrite Ebn at 1. rewrite (run_Tdecl_dot m _ bn Hm), <- Ebn.
    rewrite Ebm at 1. rewrite (run_Tdecl_dot n _ bm Hn), <- Ebm.
    f_equal.
    + apply (IH (length a)); [|reflexivity].
      subst k. rewrite length_app. simpl. lia.
    + destruct (Tdecl n (dot :: b)) as [[o1 r1]|] eqn:En.
      * destruct (segment_commute n m b Hn Hm Hne Hb o1 r1 En) as [E1 E2].
        now rewrite E1, E2.
      * destruct (Tdecl m (dot :: b)) as [[o2 r2]|] eqn:Em.
        -- destruct (segment_commute m n b Hm Hn (fun E => Hne (eq_sym E)) Hb
                       o2 r2 Em) as [E1 E2].
           now rewrite E1, E2.
        -- rewrite (run_copy _ _ _ En), (run_copy _ _ _ Em).
           rewrite (dot_free_fixed n b Hn Hb), (dot_free_fixed m b Hm Hb).
           now rewrite (run_copy _ _ _ En), (run_copy _ _ _ Em),
             (dot_free_fixed n b Hn Hb), (dot_free_fixed m b Hm Hb).
Qed.

Lemma simplify_in_order_run order s :
  simplify_in_order order s = fold_left (fun c n => run (Tdecl n) c) order s.
Proof.
  unfold simplify_in_order. revert s.
  induction order as [|n L IH]; intros s; [reflexivity|].
  cbn [fold_left]. rewrite IH. f_equal. unfold Tdecl.
  apply re_sub_run; [apply consuming_decl|apply decl_regular].
Qed.

Lemma decl_steps_perm L L' :
  Permutation L L' -> Forall (fun n => alphabetic (lit n) = true) L ->
  forall s, fold_left (fun c n => run (Tdecl n) c) L s =
            fold_left (fun c n => run (Tdecl n) c) L' s.
Proof.
  induction 1 as [|x L L' HP IH|x y L|L L' L'' HP1 IH1 HP2 IH2]; intros Ha s.
  - reflexivity.
  - cbn [fold_left]. apply IH. now inversion Ha.
  - cbn [fold_left]. f_equal. inversion Ha as [|? ? Hy Ha']; subst.
    inversion Ha' as [|? ? Hx _]; subst. now apply decl_steps_commute.
  - rewrite IH1 by assumption. apply IH2.
    rewrite Forall_forall in *. intros n Hn. apply Ha.
    now apply (Permutation_in n (Permutation_sym HP1)).
Qed.

(** X11.  The six declaration substitutions do not depend on their order:
    applied in any order, they give the buffer that the order of the
    source gives. *)
Theorem declarations_order_independent (order : list string) (s : text) :
  Permutation order target_names ->
  simplify_in_order order s = simplify_declarations s.
Proof.
  intros Hp. rewrite simplify_in_order_run, simplify_declarations_fold.
  apply decl_steps_perm; [assumption|].
  apply Forall_forall. intros n Hn. apply target_names_alphabetic.
  now apply (Permutation_in n Hp).
Qed.

Lemma declarations_order_independent_witness :
  Permutation (rev target_names) target_names /\
  simplify_in_order (rev target_names) sample_manifest
  = simplify_declarations sample_manifest.
Proof.
  assert (H : Permutation (rev target_names) target_names)
    by (apply Permutation_sym, Permutation_rev).
  split; [exact H|].
  exact (declarations_order_independent (rev target_names) sample_manifest H).
Defined.

(* ================================================================= *)
(** ** Below the DerivedData directory of the caller *)

Lemma join_extends d c n :
  d <> [] -> N.eqb c sep = false -> exists r, join d (c :: n) = d ++ r.
Proof.
  intros Hd Hc. unfold join. rewrite Hc.
  destruct (rev d) as [|x r] eqn:E.
  - apply (f_equal (@rev _)) in E. rewrite rev_involutive in E. simpl in E. congruence.
  - destruct (N.eqb x sep); eexists; reflexivity.
Qed.

Lemma derived_data_last w :
  exists D, str_path (derived_data w) = D ++ [97%N].
Proof.
  unfold derived_data.
  assert (H : forall h, exists D,
            str_path (h ++ [lit "Library"; lit "Developer"; lit "Xcode";
                            lit "DerivedData"]) = D ++ [97%N]).
  { intros h. unfold str_path.
    destruct (h ++ _) eqn:E; [destruct h; discriminate|]. rewrite <- E.
    rewrite flat_map_app.
    exists (flat_map (fun c => sep :: c) h
            ++ lit "/Library/Developer/Xcode/DerivedDat").
    rewrite <- app_assoc. reflexivity. }
  apply H.
Qed.

Lemma join_base w d :
  (forall n, d <> sep :: n) ->
  exists r, join (str_path (derived_data w)) d
            = str_path (derived_data w) ++ sep :: r.
Proof.
  intros Hd. destruct (derived_data_last w) as [D HD]. rewrite HD.
  unfold join. rewrite rev_app_distr. cbn [rev app].
  change (N.eqb 97 sep) with false. cbv iota.
  destruct d as [|c n]; [now exists []|].
  destruct (N.eqb c sep) eqn:Ec; [|now exists (c :: n)].
  apply N.eqb_eq in Ec. subst c. now destruct (Hd n).
Qed.

(** X12.  With a home directory whose name has no wildcard character, and
    a DerivedData listing whose names do not begin with a separator, a
    path that the locator returns lies below the DerivedData directory of
    the caller. *)
Theorem located_below_base (fnmatch : text -> text -> bool) (w : world)
  (p : path) :
  Forall (fun c => has_magic c = false) (w_home w) ->
  (forall d b n, In (d, b) (w_scandir w (str_path (derived_data w))) ->
     d <> sep :: n) ->
  find_package_file fnmatch w = Some p ->
  exists rest,
    strip_prefix (str_path (derived_data w)) p = Some (sep :: rest).
Proof.
  intros Hhome Hnames H.
  destruct (find_under_base fnmatch w p Hhome H) as [d [Hin ->]].
  cbn [fold_left].
  destruct (join_base w d (fun n => Hnames d true n Hin)) as [r Hr].
  rewrite Hr. unfold search_suffix. cbn [fold_left].
  set (base := str_path (derived_data w)).
  assert (Hne : forall x, base ++ x <> []).
  { intros x E. apply app_eq_nil in E. destruct E as [E _].
    destruct (derived_data_last w) as [D HD]. fold base in HD.
    rewrite HD in E. now destruct D. }
  assert (Hstep : forall x c n, N.eqb c sep = false ->
            exists y, join (base ++ x) (c :: n) = base ++ x ++ y).
  { intros x c n Hc.
    destruct (join_extends (base ++ x) c n (Hne x) Hc) as [y Hy].
    exists y. now rewrite Hy, <- app_assoc. }
  change (lit "SourcePackages") with (83%N :: lit "ourcePackages").
  destruct (Hstep (sep :: r) 83%N (lit "ourcePackages") eq_refl) as [y1 ->].
  change (lit "checkouts") with (99%N :: lit "heckouts").
  destruct (Hstep ((sep :: r) ++ y1) 99%N (lit "heckouts") eq_refl) as [y2 ->].
  change (lit "GoogleSignIn-iOS") with (71%N :: lit "oogleSignIn-iOS").
  destruct (Hstep (((sep :: r) ++ y1) ++ y2) 71%N (lit "oogleSignIn-iOS") eq_refl)
    as [y3 ->].
  change (lit "Package.swift") with (80%N :: lit "ackage.swift").
  destruct (Hstep ((((sep :: r) ++ y1) ++ y2) ++ y3) 80%N (lit "ackage.swift")
              eq_refl) as [y4 ->].
  rewrite strip_prefix_app. cbn [app]. now eexists.
Qed.

Lemma located_below_base_witness :
  Forall (fun c => has_magic c = false) (w_home (world_plain [])) /\
  find_package_file fnmatch_wild (world_plain []) = Some manifest_path /\
  exists rest,
    strip_prefix (str_path (derived_data (world_plain []))) manifest_path
    = Some (sep :: rest).
Proof.
  assert (H1 : Forall (fun c => has_magic c = false) (w_home (world_plain [])))
    by (repeat constructor).
  assert (H2 : forall d b n,
            In (d, b) (w_scandir (world_plain [])
                         (str_path (derived_data (world_plain [])))) ->
            d <> sep :: n).
  { intros d b n Hin. vm_compute in Hin.
    destruct Hin as [E|[E|[]]]; injection E as <- _; discriminate. }
  assert (H3 : find_package_file fnmatch_wild (world_plain []) = Some manifest_path)
    by (vm_compute; reflexivity).
  split; [exact H1|]. split; [exact H3|].
  exact (located_below_base fnmatch_wild (world_plain []) manifest_path H1 H2 H3).
Defined.
